(** * MedSecure ledger contracts: a shallow embedding and its properties

    The three Solidity contracts of [smart_contracts/]
    ([ConsentContract], [DataHashContract], [AuditContract]) are embedded
    as functions over an explicit storage record.

    - [address] and [uint256] values are natural numbers in binary ([N]);
      the ABI decoder guarantees the range of every argument, and the only
      arithmetic the contracts perform ([count++], [i++], [length - 1]) is
      bounded by an array length, so the checked arithmetic of Solidity 0.8
      never traps there.
    - A [mapping] is a finite map read with the zero value as default,
      which is what the EVM storage does for a slot never written.
    - A call returns [Ok] with the new storage and the emitted events, or
      [Revert] with the reason string of the failing [require]; [Panic] is
      the trap of an out-of-bounds array access.  A reverted call leaves
      the storage as it was ([commit]). *)

From stdpp Require Import gmap strings list fin_maps sorting finite.
From Stdlib Require Import NArith.

Local Open Scope string_scope.
Local Open Scope list_scope.
Local Open Scope N_scope.

Abbreviation address := N (only parsing).
Abbreviation uint256 := N (only parsing).

(** ** Call results *)

Inductive Result (A : Type) : Type :=
| Ok (a : A)
| Revert (reason : string)
| Panic.

Arguments Ok {A} a.
Arguments Revert {A} reason.
Arguments Panic {A}.

(** Sequencing: the first failure aborts the call. *)
#[global] Instance Result_bind : MBind Result := λ A B k r,
  match r with
  | Ok a => k a
  | Revert reason => Revert reason
  | Panic => Panic
  end.

#[global] Instance Result_ret : MRet Result := λ A a, Ok a.

#[global] Instance Result_fmap : FMap Result := λ A B f r,
  match r with
  | Ok a => Ok (f a)
  | Revert reason => Revert reason
  | Panic => Panic
  end.

(** [require(cond, reason)] *)
Definition require (cond : bool) (reason : string) : Result unit :=
  if cond then Ok tt else Revert reason.

Definition succeeds {A : Type} (r : Result A) : Prop := ∃ a, r = Ok a.
Definition fails {A : Type} (r : Result A) : Prop := ∀ a, r ≠ Ok a.
Definition reverts {A : Type} (r : Result A) : Prop := ∃ reason, r = Revert reason.

(** The storage after a transaction: the new one if the call returned, the
    old one if it reverted or trapped. *)
Definition commit {S E : Type} (st : S) (r : Result (S * list E)) : S :=
  match r with
  | Ok (st', _) => st'
  | _ => st
  end.

(** The events a transaction leaves in the log (none when it reverts). *)
Definition emitted {S E : Type} (r : Result (S * list E)) : list E :=
  match r with
  | Ok (_, evs) => evs
  | _ => []
  end.

(** [msg.sender] and [block.timestamp] of a call. *)
Record Env : Type := mkEnv {
  msg_sender : address;
  block_timestamp : uint256
}.

(** [bytes(s).length] *)
Definition bytes_length (s : string) : uint256 := N.of_nat (String.length s).

(** ** ConsentContract *)

Module Consent.

Record Consent : Type := mkConsent {
  exists_ : bool;
  accessLevel : string;
  startDate : uint256;
  endDate : uint256;
  purpose : string
}.

(** The value of a storage slot never written, and of a deleted one. *)
Definition Consent_zero : Consent := mkConsent false "" 0 0 "".

(** [mapping(address => mapping(address => Consent)) consents], keyed by
    the pair (patient, provider). *)
Record State : Type := mkState {
  consents : gmap (address * address) Consent
}.

Definition init : State := mkState ∅.

(** [consents[patient][provider]] *)
Definition consents_at (st : State) (patient provider : address) : Consent :=
  default Consent_zero (consents st !! (patient, provider)).

Inductive Event : Type :=
| ConsentGranted (patient provider : address) (accessLevel : string)
                 (startDate endDate : uint256) (purpose : string)
| ConsentRevoked (patient provider : address).

Definition grantConsent (env : Env) (provider : address) (accessLevel : string)
    (startDate endDate : uint256) (purpose : string) (st : State)
    : Result (State * list Event) :=
  require (negb (provider =? 0)) "Invalid provider address" ;;
  require (startDate <? endDate) "End date must be after start date" ;;
  require (block_timestamp env <? endDate) "End date must be in the future" ;;
  Ok (mkState (<[(msg_sender env, provider) :=
                   mkConsent true accessLevel startDate endDate purpose]>
                 (consents st)),
      [ConsentGranted (msg_sender env) provider accessLevel startDate endDate purpose]).

Definition revokeConsent (env : Env) (provider : address) (st : State)
    : Result (State * list Event) :=
  require (negb (provider =? 0)) "Invalid provider address" ;;
  require (exists_ (consents_at st (msg_sender env) provider)) "Consent does not exist" ;;
  Ok (mkState (delete (msg_sender env, provider) (consents st)),
      [ConsentRevoked (msg_sender env) provider]).

Definition checkConsent (env : Env) (patient provider : address) (st : State)
    : Result (bool * string * uint256 * uint256 * string) :=
  let consent := consents_at st patient provider in
  Ok (exists_ consent && (startDate consent <=? block_timestamp env)
        && (block_timestamp env <=? endDate consent),
      accessLevel consent,
      startDate consent,
      endDate consent,
      purpose consent).

Definition hasValidConsent (env : Env) (patient provider : address) (st : State)
    : Result bool :=
  let consent := consents_at st patient provider in
  Ok (exists_ consent && (startDate consent <=? block_timestamp env)
        && (block_timestamp env <=? endDate consent)).

(** The [valid] component of what [checkConsent] returns. *)
Definition valid_of (r : Result (bool * string * uint256 * uint256 * string))
    : Result bool :=
  match r with
  | Ok (valid, _, _, _, _) => Ok valid
  | Revert reason => Revert reason
  | Panic => Panic
  end.

(** The external calls of the contract. *)
Inductive Call : Type :=
| GrantConsent (provider : address) (accessLevel : string)
               (startDate endDate : uint256) (purpose : string)
| RevokeConsent (provider : address)
| CheckConsent (patient provider : address)
| HasValidConsent (patient provider : address).

(** The storage after a call; the two [view] functions write nothing. *)
Definition exec (env : Env) (c : Call) (st : State) : State :=
  match c with
  | GrantConsent provider lvl s e p => commit st (grantConsent env provider lvl s e p st)
  | RevokeConsent provider => commit st (revokeConsent env provider st)
  | CheckConsent _ _ => st
  | HasValidConsent _ _ => st
  end.

(** Storages the contract can be in after deployment. *)
Inductive reachable : State → Prop :=
| reach_init : reachable init
| reach_step env c st : reachable st → reachable (exec env c st).

(** Every slot holds either a grant written by [grantConsent] or zero. *)
Definition slot_ok (c : Consent) : Prop :=
  (exists_ c = true ∧ 0 < endDate c) ∨ c = Consent_zero.

Definition wf (st : State) : Prop :=
  ∀ patient provider, slot_ok (consents_at st patient provider).

(** The shape [checkConsent] returns for a pair without a grant. *)
Definition not_found : bool * string * uint256 * uint256 * string :=
  (false, "", 0, 0, "").

(** Every field [checkConsent] returns beside [valid] is non-empty. *)
Definition fields_nonempty (r : bool * string * uint256 * uint256 * string)
    : Prop :=
  match r with
  | (_, lvl, s, e, p) => lvl ≠ "" ∧ s ≠ 0 ∧ e ≠ 0 ∧ p ≠ ""
  end.

(** The storage after a run of calls, each with its own environment. *)
Definition run (calls : list (Env * Call)) (st : State) : State :=
  foldl (λ st' ec, exec ec.1 ec.2 st') st calls.

End Consent.

(** ** DataHashContract *)

Module DataHash.

Record DataHashRecord : Type := mkRecord {
  dataHash : string;
  timestamp : uint256;
  dataType : string;
  owner : address;
  exists_ : bool
}.

Definition DataHashRecord_zero : DataHashRecord := mkRecord "" 0 "" 0 false.

Record State : Type := mkState {
  dataHashes : gmap string DataHashRecord;
  ownerDataIds : gmap address (list string)
}.

Definition init : State := mkState ∅ ∅.

(** [dataHashes[dataId]] *)
Definition dataHashes_at (st : State) (dataId : string) : DataHashRecord :=
  default DataHashRecord_zero (dataHashes st !! dataId).

(** [ownerDataIds[owner]] *)
Definition ownerDataIds_at (st : State) (owner : address) : list string :=
  default [] (ownerDataIds st !! owner).

(** Writes to one member of a record in storage. *)
Definition set_dataHash (dataId v : string) (st : State) : State :=
  let r := dataHashes_at st dataId in
  mkState (<[dataId := mkRecord v (timestamp r) (dataType r) (owner r) (exists_ r)]>
             (dataHashes st))
          (ownerDataIds st).

Definition set_timestamp (dataId : string) (v : uint256) (st : State) : State :=
  let r := dataHashes_at st dataId in
  mkState (<[dataId := mkRecord (dataHash r) v (dataType r) (owner r) (exists_ r)]>
             (dataHashes st))
          (ownerDataIds st).

Definition set_dataType (dataId v : string) (st : State) : State :=
  let r := dataHashes_at st dataId in
  mkState (<[dataId := mkRecord (dataHash r) (timestamp r) v (owner r) (exists_ r)]>
             (dataHashes st))
          (ownerDataIds st).

Inductive Event : Type :=
| DataHashStored (dataId dataHash dataType : string) (timestamp : uint256)
                 (owner : address)
| DataHashUpdated (dataId oldHash newHash : string) (timestamp : uint256)
                  (owner : address).

(** The arguments [dataHash], [dataType] and [timestamp] of the source are
    primed here, the plain names being the members of [DataHashRecord]. *)
Definition storeDataHash (env : Env) (dataId dataHash' dataType' : string)
    (timestamp' : uint256) (st : State) : Result (State * list Event) :=
  require (0 <? bytes_length dataId) "Data ID cannot be empty" ;;
  require (0 <? bytes_length dataHash') "Data hash cannot be empty" ;;
  require (0 <? bytes_length dataType') "Data type cannot be empty" ;;
  if exists_ (dataHashes_at st dataId) then
    let oldHash := dataHash (dataHashes_at st dataId) in
    let st1 := set_dataHash dataId dataHash' st in
    let st2 := set_timestamp dataId timestamp' st1 in
    let st3 := set_dataType dataId dataType' st2 in
    Ok (st3, [DataHashUpdated dataId oldHash dataHash' timestamp' (msg_sender env)])
  else
    Ok (mkState
          (<[dataId := mkRecord dataHash' timestamp' dataType' (msg_sender env) true]>
             (dataHashes st))
          (<[msg_sender env := ownerDataIds_at st (msg_sender env) ++ [dataId]]>
             (ownerDataIds st)),
        [DataHashStored dataId dataHash' dataType' timestamp' (msg_sender env)]).

Section Verify.

(** [keccak256], the hash primitive of the EVM, with values in [bytes32]. *)
Variable keccak256 : string → N.

Definition verifyDataHash (dataId dataHash' : string) (st : State)
    : Result (bool * string * uint256 * string) :=
  let record := dataHashes_at st dataId in
  if negb (exists_ record) then Ok (false, "", 0, "")
  else
    let isValid := keccak256 (dataHash record) =? keccak256 dataHash' in
    Ok (isValid, dataHash record, timestamp record, dataType record).

End Verify.

Definition getDataHashCount (owner' : address) (st : State) : Result uint256 :=
  Ok (N.of_nat (length (ownerDataIds_at st owner'))).

Definition getDataId (owner' : address) (index : uint256) (st : State)
    : Result string :=
  require (index <? N.of_nat (length (ownerDataIds_at st owner')))
          "Index out of bounds" ;;
  match ownerDataIds_at st owner' !! N.to_nat index with
  | Some dataId => Ok dataId
  | None => Panic
  end.

Definition getDataHashDetails (dataId : string) (st : State)
    : Result (string * uint256 * string * address * bool) :=
  let record := dataHashes_at st dataId in
  Ok (dataHash record, timestamp record, dataType record, owner record,
      exists_ record).

Definition dataHashExists (dataId : string) (st : State) : Result bool :=
  Ok (exists_ (dataHashes_at st dataId)).

(** The external calls; only [storeDataHash] writes to storage. *)
Inductive Call : Type :=
| StoreDataHash (dataId dataHash dataType : string) (timestamp : uint256)
| VerifyDataHash (dataId dataHash : string)
| GetDataHashCount (owner : address)
| GetDataId (owner : address) (index : uint256)
| GetDataHashDetails (dataId : string)
| DataHashExists (dataId : string).

Definition exec (env : Env) (c : Call) (st : State) : State :=
  match c with
  | StoreDataHash dataId h ty ts => commit st (storeDataHash env dataId h ty ts st)
  | _ => st
  end.

Inductive reachable : State → Prop :=
| reach_init : reachable init
| reach_step env c st : reachable st → reachable (exec env c st).

(** An id is listed under an owner exactly when its record exists with
    that owner, and no list repeats an id. *)
Definition wf (st : State) : Prop :=
  (∀ o, NoDup (ownerDataIds_at st o))
  ∧ (∀ o dataId, dataId ∈ ownerDataIds_at st o ↔
       exists_ (dataHashes_at st dataId) = true ∧ owner (dataHashes_at st dataId) = o)
  ∧ (∀ dataId, exists_ (dataHashes_at st dataId) = false →
       dataHashes_at st dataId = DataHashRecord_zero).




(** The members of a record other than its digest and its type agree. *)
Definition same_except_hash_and_type (r r' : DataHashRecord) : Prop :=
  timestamp r' = timestamp r ∧ owner r' = owner r ∧ exists_ r' = exists_ r.

(** The storage after a run of calls, each with its own environment. *)
Definition run (calls : list (Env * Call)) (st : State) : State :=
  foldl (λ st' ec, exec ec.1 ec.2 st') st calls.

End DataHash.

(** ** AuditContract *)

Module Audit.

Record AccessLog : Type := mkLog {
  patient : address;
  accessor : address;
  resourceId : string;
  accessType : string;
  timestamp : uint256
}.

Record State : Type := mkState {
  accessLogs : list AccessLog;
  patientAccessLogs : gmap address (list uint256)
}.

Definition init : State := mkState [] ∅.

(** [patientAccessLogs[patient]] *)
Definition patientAccessLogs_at (st : State) (patient : address) : list uint256 :=
  default [] (patientAccessLogs st !! patient).

Inductive Event : Type :=
| AccessLogged (patient accessor : address) (resourceId accessType : string)
               (timestamp : uint256).

Definition logAccess (env : Env) (patient accessor : address)
    (resourceId accessType : string) (timestamp : uint256) (st : State)
    : Result (State * list Event) :=
  require (negb (patient =? 0)) "Invalid patient address" ;;
  require (negb (accessor =? 0)) "Invalid accessor address" ;;
  require (0 <? bytes_length resourceId) "Resource ID cannot be empty" ;;
  require (0 <? bytes_length accessType) "Access type cannot be empty" ;;
  let log := mkLog patient accessor resourceId accessType timestamp in
  let accessLogs' := accessLogs st ++ [log] in
  let logIndex := N.of_nat (length accessLogs') - 1 in
  Ok (mkState accessLogs'
        (<[patient := patientAccessLogs_at st patient ++ [logIndex]]>
           (patientAccessLogs st)),
      [AccessLogged patient accessor resourceId accessType timestamp]).

Definition getAccessLogCount (patient : address) (st : State) : Result uint256 :=
  Ok (N.of_nat (length (patientAccessLogs_at st patient))).

(** [accessLogs[logIndex]], trapping out of bounds. *)
Definition accessLogs_at (logs : list AccessLog) (logIndex : uint256)
    : Result AccessLog :=
  match logs !! N.to_nat logIndex with
  | Some log => Ok log
  | None => Panic
  end.

Definition getAccessLog (patient : address) (index : uint256) (st : State)
    : Result (address * address * string * string * uint256) :=
  require (index <? N.of_nat (length (patientAccessLogs_at st patient)))
          "Index out of bounds" ;;
  match patientAccessLogs_at st patient !! N.to_nat index with
  | None => Panic
  | Some logIndex =>
      log ← accessLogs_at (accessLogs st) logIndex;
      Ok (Audit.patient log, accessor log, resourceId log, accessType log,
          timestamp log)
  end.

Section TimeRange.

Variable logs : list AccessLog.
Variables startTime endTime maxResults : uint256.

(** [log.timestamp >= startTime && log.timestamp <= endTime] *)
Definition in_range (log : AccessLog) : bool :=
  (startTime <=? timestamp log) && (timestamp log <=? endTime).

(** First pass.  [rest] is [patientLogs[i..]]: the loop ends when it is
    empty ([i < patientLogs.length] fails) or when [count < maxResults]
    fails. *)
Fixpoint range_count (rest : list uint256) (count : uint256) : Result uint256 :=
  match rest with
  | [] => Ok count
  | logIndex :: rest' =>
      if count <? maxResults then
        log ← accessLogs_at logs logIndex;
        if in_range log then range_count rest' (count + 1)
        else range_count rest' count
      else Ok count
  end.

(** Second pass, writing [result[count] = patientLogs[i]]. *)
Fixpoint range_fill (rest : list uint256) (count : uint256)
    (result : list uint256) : Result (list uint256) :=
  match rest with
  | [] => Ok result
  | logIndex :: rest' =>
      if count <? N.of_nat (length result) then
        log ← accessLogs_at logs logIndex;
        if in_range log then
          range_fill rest' (count + 1) (<[N.to_nat count := logIndex]> result)
        else range_fill rest' count result
      else Ok result
  end.

(** What the specification allows instead of the two passes: one forward
    pass that stops as soon as [maxResults] matches are collected. *)
Fixpoint single_pass (rest : list uint256) (collected : list uint256)
    : Result (list uint256) :=
  match rest with
  | [] => Ok collected
  | logIndex :: rest' =>
      if N.of_nat (length collected) <? maxResults then
        log ← accessLogs_at logs logIndex;
        if in_range log then single_pass rest' (collected ++ [logIndex])
        else single_pass rest' collected
      else Ok collected
  end.

(** The first [n] positions of [rest] whose entry is in range, in the
    order of [rest]; it traps where the loops above would. *)
Fixpoint scan (rest : list uint256) (n : nat) : Result (list uint256) :=
  match rest, n with
  | [], _ => Ok []
  | _, O => Ok []
  | logIndex :: rest', S n' =>
      log ← accessLogs_at logs logIndex;
      if in_range log then cons logIndex <$> scan rest' n'
      else scan rest' n
  end.

(** Whether the entry at a position exists and is in range. *)
Definition in_range_at (logIndex : uint256) : bool :=
  match logs !! N.to_nat logIndex with
  | Some log => in_range log
  | None => false
  end.

End TimeRange.

Definition getAccessLogsInTimeRange (patient : address)
    (startTime endTime maxResults : uint256) (st : State)
    : Result (list uint256) :=
  require (startTime <=? endTime) "Start time must be before end time" ;;
  let patientLogs := patientAccessLogs_at st patient in
  count ← range_count (accessLogs st) startTime endTime maxResults patientLogs 0;
  let result := replicate (N.to_nat count) 0 in
  range_fill (accessLogs st) startTime endTime patientLogs 0 result.

Section ByAccessor.

Variable accessor' : address.
Variable maxResults : uint256.

(** First pass over [accessLogs[i..]]. *)
Fixpoint accessor_count (rest : list AccessLog) (count : uint256) : uint256 :=
  match rest with
  | [] => count
  | log :: rest' =>
      if count <? maxResults then
        if accessor log =? accessor' then accessor_count rest' (count + 1)
        else accessor_count rest' count
      else count
  end.

(** Second pass, writing [result[count] = i]. *)
Fixpoint accessor_fill (rest : list AccessLog) (i count : uint256)
    (result : list uint256) : list uint256 :=
  match rest with
  | [] => result
  | log :: rest' =>
      if count <? N.of_nat (length result) then
        if accessor log =? accessor' then
          accessor_fill rest' (i + 1) (count + 1) (<[N.to_nat count := i]> result)
        else accessor_fill rest' (i + 1) count result
      else result
  end.

End ByAccessor.

Definition getAccessLogsByAccessor (accessor' : address) (maxResults : uint256)
    (st : State) : Result (list uint256) :=
  let count := accessor_count accessor' maxResults (accessLogs st) 0 in
  let result := replicate (N.to_nat count) 0 in
  Ok (accessor_fill accessor' (accessLogs st) 0 0 result).

(** The external calls; only [logAccess] writes to storage. *)
Inductive Call : Type :=
| LogAccess (patient accessor : address) (resourceId accessType : string)
            (timestamp : uint256)
| GetAccessLogCount (patient : address)
| GetAccessLog (patient : address) (index : uint256)
| GetAccessLogsInTimeRange (patient : address)
                           (startTime endTime maxResults : uint256)
| GetAccessLogsByAccessor (accessor : address) (maxResults : uint256).

Definition exec (env : Env) (c : Call) (st : State) : State :=
  match c with
  | LogAccess p a r ty ts => commit st (logAccess env p a r ty ts st)
  | _ => st
  end.

Inductive reachable : State → Prop :=
| reach_init : reachable init
| reach_step env c st : reachable st → reachable (exec env c st).

(** The storage after a run of calls, each with its own environment. *)
Definition run (calls : list (Env * Call)) (st : State) : State :=
  foldl (λ st' ec, exec ec.1 ec.2 st') st calls.

Section Positions.

(** The member of an entry to select on: [patient] or [accessor]. *)
Variable key : AccessLog → address.

(** The positions, counted from [i], of the entries whose key is [who]. *)
Fixpoint positions_from (i : uint256) (who : address) (logs : list AccessLog)
    : list uint256 :=
  match logs with
  | [] => []
  | log :: logs' =>
      if key log =? who then i :: positions_from (i + 1) who logs'
      else positions_from (i + 1) who logs'
  end.

End Positions.

(** The index of a patient lists the positions of that patient's entries
    in the primary log, in order. *)
Definition wf (st : State) : Prop :=
  ∀ p, patientAccessLogs_at st p = positions_from patient 0 p (accessLogs st).

(** The sequence number of an entry is its position in [accessLogs]. *)
Definition sequence_of (st : State) (log : AccessLog) (n : uint256) : Prop :=
  accessLogs st !! N.to_nat n = Some log.

(** The index the storage keeps under address [who] received [n]. *)
Definition index_appended (st st' : State) (who : address) (n : uint256) : Prop :=
  patientAccessLogs_at st' who = patientAccessLogs_at st who ++ [n].

(** A log with four entries, three of them of patient 1. *)
Definition sample : State :=
  exec (mkEnv 9 0) (LogAccess 1 2 "rec-4" "view" 40)
    (exec (mkEnv 9 0) (LogAccess 1 4 "rec-3" "download" 30)
      (exec (mkEnv 9 0) (LogAccess 3 2 "rec-2" "view" 20)
        (exec (mkEnv 9 0) (LogAccess 1 2 "rec-1" "view" 10) init))).

End Audit.

(** * Properties *)

Lemma require_ok cond reason : require cond reason = Ok tt ↔ cond = true.
Proof. unfold require. destruct cond; split; congruence. Qed.

Lemma bytes_length_pos s : (0 <? bytes_length s) = true ↔ s ≠ "".
Proof.
  unfold bytes_length. destruct s as [|a s]; simpl.
  - split; [discriminate | congruence].
  - split; [discriminate | intros _; apply N.ltb_lt; lia].
Qed.

Lemma reverts_Revert {A} reason : reverts (@Revert A reason) ↔ True.
Proof. split; [done | intros _; by eexists]. Qed.

Lemma reverts_Ok {A} (a : A) : reverts (Ok a) ↔ False.
Proof. split; [intros [reason Hr]; discriminate | done]. Qed.

Lemma succeeds_Ok {A} (a : A) : succeeds (Ok a) ↔ True.
Proof. split; [done | intros _; by eexists]. Qed.

Lemma succeeds_Revert {A} reason : succeeds (@Revert A reason) ↔ False.
Proof. split; [intros [a Ha]; discriminate | done]. Qed.

(** Rewrites the outcome predicates once the result of a call is known. *)
Ltac outcome :=
  rewrite ?reverts_Revert, ?reverts_Ok, ?succeeds_Ok, ?succeeds_Revert.

(** ** ConsentContract *)

Module ConsentFacts.
Import Consent.

(** *** Outcomes of the two transactions *)

Lemma grantConsent_cases env provider lvl s e p st :
  (provider = 0 ∧
     grantConsent env provider lvl s e p st = Revert "Invalid provider address")
  ∨ (provider ≠ 0 ∧ e ≤ s ∧
     grantConsent env provider lvl s e p st = Revert "End date must be after start date")
  ∨ (provider ≠ 0 ∧ s < e ∧ e ≤ block_timestamp env ∧
     grantConsent env provider lvl s e p st = Revert "End date must be in the future")
  ∨ (provider ≠ 0 ∧ s < e ∧ block_timestamp env < e ∧
     grantConsent env provider lvl s e p st =
       Ok (mkState (<[(msg_sender env, provider) := mkConsent true lvl s e p]> (consents st)),
           [ConsentGranted (msg_sender env) provider lvl s e p])).
Proof.
  unfold grantConsent, require.
  destruct (N.eqb_spec provider 0) as [->|Hp]; simpl; [by left|].
  destruct (N.ltb_spec s e) as [Hse|Hse]; simpl; [|right; by left].
  destruct (N.ltb_spec (block_timestamp env) e) as [Hne|Hne]; simpl.
  - do 3 right. done.
  - do 2 right. left. done.
Qed.

Lemma revokeConsent_cases env provider st :
  (provider = 0 ∧ revokeConsent env provider st = Revert "Invalid provider address")
  ∨ (provider ≠ 0 ∧ exists_ (consents_at st (msg_sender env) provider) = false ∧
     revokeConsent env provider st = Revert "Consent does not exist")
  ∨ (provider ≠ 0 ∧ exists_ (consents_at st (msg_sender env) provider) = true ∧
     revokeConsent env provider st =
       Ok (mkState (delete (msg_sender env, provider) (consents st)),
           [ConsentRevoked (msg_sender env) provider])).
Proof.
  unfold revokeConsent, require.
  destruct (N.eqb_spec provider 0) as [->|Hp]; simpl; [by left|].
  destruct (exists_ (consents_at st (msg_sender env) provider)); simpl.
  - do 2 right. done.
  - right. left. done.
Qed.

Lemma consents_at_insert st k c patient provider :
  consents_at (mkState (<[k := c]> (consents st))) patient provider =
    if decide (k = (patient, provider)) then c else consents_at st patient provider.
Proof.
  unfold consents_at; simpl. rewrite lookup_insert. by case_decide.
Qed.

Lemma consents_at_delete st k patient provider :
  consents_at (mkState (delete k (consents st))) patient provider =
    if decide (k = (patient, provider)) then Consent_zero
    else consents_at st patient provider.
Proof.
  unfold consents_at; simpl. rewrite lookup_delete. by case_decide.
Qed.

(** *** The storage invariant *)

Lemma consent_wf_init : wf init.
Proof. intros patient provider. right. reflexivity. Qed.

Lemma consent_wf_exec env c st : wf st → wf (exec env c st).
Proof.
  intros Hwf. destruct c as [provider lvl s e p|provider| |]; simpl; try done.
  - destruct (grantConsent_cases env provider lvl s e p st)
      as [[_ ->]|[(_ & _ & ->)|[(_ & _ & _ & ->)|(_ & _ & Hnow & ->)]]]; simpl; try done.
    intros patient prov. rewrite consents_at_insert. case_decide; [|apply Hwf].
    left. simpl. split; [done|lia].
  - destruct (revokeConsent_cases env provider st)
      as [[_ ->]|[(_ & _ & ->)|(_ & _ & ->)]]; simpl; try done.
    intros patient prov. rewrite consents_at_delete. case_decide; [|apply Hwf].
    by right.
Qed.

Lemma consent_reachable_wf st : reachable st → wf st.
Proof. induction 1; [apply consent_wf_init | by apply consent_wf_exec]. Qed.


(** *** grantConsent *)

(** C3.  [grantConsent] reverts exactly when the provider is the zero
    address, or [startDate >= endDate], or [endDate] is not strictly after
    [block.timestamp]; otherwise it returns.  A reverted call writes
    nothing and emits nothing; in particular a grant whose [endDate] is
    already past reverts, every slot reads as before, and a pair without a
    grant is still without one. *)
Theorem grantConsent_validation env provider lvl s e p st :
  let r := grantConsent env provider lvl s e p st in
  let st' := exec env (GrantConsent provider lvl s e p) st in
  (reverts r ↔ provider = 0 ∨ e ≤ s ∨ e ≤ block_timestamp env)
  ∧ (succeeds r ↔ ¬ (provider = 0 ∨ e ≤ s ∨ e ≤ block_timestamp env))
  ∧ (reverts r → st' = st ∧ emitted r = [])
  ∧ (e < block_timestamp env →
       reverts r
       ∧ (∀ a b, consents_at st' a b = consents_at st a b)
       ∧ (exists_ (consents_at st (msg_sender env) provider) = false →
            exists_ (consents_at st' (msg_sender env) provider) = false)).
Proof.
  intros r st'. subst r st'. simpl.
  destruct (grantConsent_cases env provider lvl s e p st)
    as [[H0 ->]|[(H0 & Hse & ->)|[(H0 & Hse & Hnow & ->)|(H0 & Hse & Hnow & ->)]]];
    simpl; outcome; intuition (try lia; try done).
Qed.

(** X2.  A grant that returns is what a later [checkConsent] reads back,
    and it is valid exactly inside its window. *)
Lemma grantConsent_then_check env env' provider lvl s e p st :
  succeeds (grantConsent env provider lvl s e p st) →
  checkConsent env' (msg_sender env) provider
      (exec env (GrantConsent provider lvl s e p) st) =
    Ok ((s <=? block_timestamp env') && (block_timestamp env' <=? e), lvl, s, e, p).
Proof.
  intros Hok. simpl.
  destruct (grantConsent_cases env provider lvl s e p st)
    as [[H0 Hr]|[(H0 & Hse & Hr)|[(H0 & Hse & Hnow & Hr)|(H0 & Hse & Hnow & Hr)]]];
    rewrite Hr in *; try (destruct Hok; discriminate). simpl.
  unfold checkConsent. rewrite consents_at_insert, decide_True by done. done.
Qed.

(** *** checkConsent *)

(** C4.  [checkConsent] writes nothing and always returns: its first
    component is true exactly when the slot of the pair holds a grant and
    [startDate <= block.timestamp <= endDate]; for a pair without a grant
    it returns [(false, "", 0, 0, "")]. *)
Theorem checkConsent_spec env patient provider st :
  reachable st →
  let c := consents_at st patient provider in
  exec env (CheckConsent patient provider) st = st
  ∧ ∃ valid, checkConsent env patient provider st =
       Ok (valid, accessLevel c, startDate c, endDate c, purpose c)
    ∧ (valid = true ↔
         exists_ c = true ∧ startDate c ≤ block_timestamp env ≤ endDate c)
    ∧ (exists_ c = false →
         checkConsent env patient provider st = Ok not_found).
Proof.
  intros Hreach c. split; [done|].
  unfold checkConsent. fold c. eexists. split; [reflexivity|]. split.
  - rewrite !andb_true_iff, !N.leb_le. tauto.
  - intros Hex. destruct (consent_reachable_wf st Hreach patient provider) as [[Ht _]|Hz].
    + fold c in Ht. congruence.
    + fold c in Hz. rewrite Hz. reflexivity.
Qed.

Lemma checkConsent_spec_witness :
  checkConsent (mkEnv 7 50) 7 9
      (exec (mkEnv 7 10) (GrantConsent 9 "full" 5 100 "checkup") init) =
    Ok (true, "full", 5, 100, "checkup").
Proof.
  destruct (checkConsent_spec (mkEnv 7 50) 7 9
              (exec (mkEnv 7 10) (GrantConsent 9 "full" 5 100 "checkup") init))
    as [_ [valid [Hc [Hv _]]]].
  - apply reach_step, reach_init.
  - rewrite Hc. f_equal. f_equal. f_equal. f_equal. f_equal.
    apply Hv. vm_compute. repeat split; discriminate.
Defined.

(** *** revokeConsent *)

(** C7.  [revokeConsent] reverts exactly when the provider is the zero
    address or the caller has no grant for the provider; a reverted call
    writes nothing.  When it returns, the slot is zero again, a following
    [checkConsent] yields [(false, "", 0, 0, "")] at any time, the other
    slots are as before and [ConsentRevoked] is emitted. *)
Theorem revokeConsent_spec env provider st :
  let r := revokeConsent env provider st in
  let st' := exec env (RevokeConsent provider) st in
  (reverts r ↔
     provider = 0 ∨ exists_ (consents_at st (msg_sender env) provider) = false)
  ∧ (reverts r → st' = st ∧ emitted r = [])
  ∧ (¬ reverts r →
       r = Ok (st', [ConsentRevoked (msg_sender env) provider])
       ∧ consents_at st' (msg_sender env) provider = Consent_zero
       ∧ (∀ env', checkConsent env' (msg_sender env) provider st' = Ok not_found)
       ∧ (∀ a b, (a, b) ≠ (msg_sender env, provider) →
            consents_at st' a b = consents_at st a b)).
Proof.
  intros r st'. subst r st'. simpl.
  destruct (revokeConsent_cases env provider st)
    as [[H0 ->]|[(H0 & Hex & ->)|(H0 & Hex & ->)]]; simpl; outcome.
  - intuition.
  - intuition.
  - split_and!; try (intuition congruence). intros _. split_and!; try done.
    + rewrite consents_at_delete, decide_True; done.
    + intros env'. unfold checkConsent.
      rewrite consents_at_delete, decide_True; done.
    + intros a b Hab. rewrite consents_at_delete, decide_False; done.
Qed.

(** *** hasValidConsent *)

(** C8.  In every storage and at every time, [hasValidConsent] returns the
    first component of what [checkConsent] returns. *)
Theorem hasValidConsent_is_check_valid env patient provider st :
  hasValidConsent env patient provider st =
    valid_of (checkConsent env patient provider st).
Proof. reflexivity. Qed.

(** C9, as the code has it.  For a pair that holds a grant, at a time
    outside [[startDate, endDate]], [checkConsent] returns [false] with
    the stored [accessLevel], [startDate], [endDate] and [purpose]; of
    these the [endDate] is always positive, so the answer differs from
    the one for a pair without a grant. *)
Theorem checkConsent_expired_distinguishable env patient provider st :
  reachable st →
  let c := consents_at st patient provider in
  exists_ c = true →
  block_timestamp env < startDate c ∨ endDate c < block_timestamp env →
  checkConsent env patient provider st =
    Ok (false, accessLevel c, startDate c, endDate c, purpose c)
  ∧ 0 < endDate c
  ∧ checkConsent env patient provider st ≠ Ok not_found.
Proof.
  intros Hreach c Hex Hout.
  assert (Hend : 0 < endDate c).
  { destruct (consent_reachable_wf st Hreach patient provider) as [[_ He]|Hz]; [done|].
    fold c in Hz. rewrite Hz in Hex. discriminate. }
  assert (Hc : checkConsent env patient provider st =
                 Ok (false, accessLevel c, startDate c, endDate c, purpose c)).
  { unfold checkConsent. fold c. do 5 f_equal.
    apply andb_false_iff. rewrite andb_false_iff, !N.leb_gt. tauto. }
  split; [done|]. split; [done|].
  rewrite Hc. unfold not_found. intros Heq. inversion Heq as [[H1 H2 H3 H4]].
  lia.
Qed.

Lemma checkConsent_expired_distinguishable_witness :
  checkConsent (mkEnv 7 200) 7 9
      (exec (mkEnv 7 10) (GrantConsent 9 "full" 5 100 "checkup") init) =
    Ok (false, "full", 5, 100, "checkup").
Proof.
  destruct (checkConsent_expired_distinguishable (mkEnv 7 200) 7 9
              (exec (mkEnv 7 10) (GrantConsent 9 "full" 5 100 "checkup") init))
    as [Hc _].
  - apply reach_step, reach_init.
  - reflexivity.
  - right. reflexivity.
  - exact Hc.
Defined.

(** C9, as the claim has it, fails: [grantConsent] accepts an empty
    [accessLevel], an empty [purpose] and a zero [startDate], and an
    expired grant made so comes back with those fields empty. *)
Lemma checkConsent_expired_fields_may_be_empty :
  let st := exec (mkEnv 7 10) (GrantConsent 9 "" 0 100 "") init in
  succeeds (grantConsent (mkEnv 7 10) 9 "" 0 100 "" init)
  ∧ exists_ (consents_at st 7 9) = true
  ∧ checkConsent (mkEnv 7 200) 7 9 st = Ok (false, "", 0, 100, "")
  ∧ ¬ fields_nonempty (false, "", 0, 100, "").
Proof.
  intros st. split_and!.
  - eexists. reflexivity.
  - reflexivity.
  - reflexivity.
  - intros (Hlvl & _). by apply Hlvl.
Qed.

(** The scenario of a thirty day grant: valid the day after it starts,
    not valid after it ends though still stored, gone once revoked. *)
Example grant_check_revoke :
  let st := exec (mkEnv 1 1000) (GrantConsent 2 "full" 1000 1030 "checkup") init in
  checkConsent (mkEnv 2 1001) 1 2 st = Ok (true, "full", 1000, 1030, "checkup")
  ∧ checkConsent (mkEnv 2 1031) 1 2 st = Ok (false, "full", 1000, 1030, "checkup")
  ∧ succeeds (revokeConsent (mkEnv 1 1031) 2 st)
  ∧ checkConsent (mkEnv 2 1031) 1 2 (exec (mkEnv 1 1031) (RevokeConsent 2) st)
      = Ok not_found.
Proof. split_and!; try reflexivity. eexists. reflexivity. Qed.

(** *** Further properties of the consent registry *)

(** X1.  A [grantConsent] whose arguments pass the three checks returns,
    writes exactly the given fields into the caller's slot for the
    provider, whatever the slot held before, leaves the slot of every
    other pair as it was, and emits [ConsentGranted] with all fields. *)
Theorem grantConsent_overwrites env provider lvl s e p st :
  provider ≠ 0 → s < e → block_timestamp env < e →
  let st' := exec env (GrantConsent provider lvl s e p) st in
  grantConsent env provider lvl s e p st =
    Ok (st', [ConsentGranted (msg_sender env) provider lvl s e p])
  ∧ consents_at st' (msg_sender env) provider = mkConsent true lvl s e p
  ∧ (∀ a b, (a, b) ≠ (msg_sender env, provider) →
       consents_at st' a b = consents_at st a b).
Proof.
  intros Hp Hse Hnow st'. subst st'. simpl.
  destruct (grantConsent_cases env provider lvl s e p st)
    as [[? _]|[(_ & ? & _)|[(_ & _ & ? & _)|(_ & _ & _ & ->)]]]; try lia.
  simpl. split_and!; [done| |].
  - rewrite consents_at_insert, decide_True; done.
  - intros a b Hab. rewrite consents_at_insert, decide_False; done.
Qed.

Lemma grantConsent_overwrites_witness :
  let st := exec (mkEnv 1 10) (GrantConsent 2 "full" 5 100 "checkup") init in
  consents_at (exec (mkEnv 1 20) (GrantConsent 2 "limited" 30 60 "follow-up") st) 1 2
    = mkConsent true "limited" 30 60 "follow-up".
Proof.
  intros st.
  destruct (grantConsent_overwrites (mkEnv 1 20) 2 "limited" 30 60 "follow-up" st)
    as (_ & Hslot & _); [done|done|done|].
  exact Hslot.
Defined.

Lemma grantConsent_then_check_witness :
  checkConsent (mkEnv 2 50) 1 2
      (exec (mkEnv 1 10) (GrantConsent 2 "full" 20 100 "checkup") init) =
    Ok ((20 <=? 50) && (50 <=? 100), "full", 20, 100, "checkup").
Proof.
  apply (grantConsent_then_check (mkEnv 1 10) (mkEnv 2 50) 2 "full" 20 100 "checkup" init).
  eexists. reflexivity.
Defined.

(** No call writes to a slot of a patient other than its sender. *)
Lemma exec_other_patient env c st a b :
  msg_sender env ≠ a → consents_at (exec env c st) a b = consents_at st a b.
Proof.
  intros Hne. destruct c as [provider lvl s e p|provider| |]; simpl; try done.
  - destruct (grantConsent_cases env provider lvl s e p st)
      as [[_ ->]|[(_ & _ & ->)|[(_ & _ & _ & ->)|(_ & _ & _ & ->)]]]; simpl; try done.
    rewrite consents_at_insert, decide_False; [done | congruence].
  - destruct (revokeConsent_cases env provider st)
      as [[_ ->]|[(_ & _ & ->)|(_ & _ & ->)]]; simpl; try done.
    rewrite consents_at_delete, decide_False; [done | congruence].
Qed.

(** X3.  The grants of a patient change only through calls the patient
    sends: after any run of calls sent by others, every slot of the
    patient reads as before. *)
Theorem run_other_senders calls st a :
  Forall (λ ec, msg_sender ec.1 ≠ a) calls →
  ∀ b, consents_at (run calls st) a b = consents_at st a b.
Proof.
  intros Hall. revert st.
  induction Hall as [|[env c] calls Hne _ IH]; intros st b; [done|].
  simpl. rewrite IH. by apply exec_other_patient.
Qed.

Lemma run_other_senders_witness :
  let st := exec (mkEnv 1 10) (GrantConsent 2 "full" 5 100 "checkup") init in
  consents_at (run [(mkEnv 3 20, RevokeConsent 2);
                    (mkEnv 2 20, GrantConsent 2 "limited" 30 60 "audit")] st) 1 2
    = consents_at st 1 2.
Proof.
  intros st. apply run_other_senders.
  repeat constructor; simpl; discriminate.
Defined.

(** A key of the stored map always holds a grant. *)
Lemma reachable_present st k c :
  reachable st → consents st !! k = Some c → exists_ c = true.
Proof.
  intros Hreach. revert k c.
  induction Hreach as [|env call st Hreach IH]; intros k c.
  - simpl. by rewrite lookup_empty.
  - destruct call as [provider lvl s e p|provider| |]; simpl; try apply IH.
    + destruct (grantConsent_cases env provider lvl s e p st)
        as [[_ ->]|[(_ & _ & ->)|[(_ & _ & _ & ->)|(_ & _ & _ & ->)]]];
        simpl; try apply IH.
      rewrite lookup_insert. case_decide; [by intros [= <-] | apply IH].
    + destruct (revokeConsent_cases env provider st)
        as [[_ ->]|[(_ & _ & ->)|(_ & _ & ->)]]; simpl; try apply IH.
      rewrite lookup_delete. case_decide; [done | apply IH].
Qed.

(** X4.  Granting on a pair without a grant and then revoking, both by the
    same sender, gives back the storage exactly as it was. *)
Theorem grant_then_revoke_restores env env' provider lvl s e p st :
  reachable st →
  msg_sender env' = msg_sender env →
  exists_ (consents_at st (msg_sender env) provider) = false →
  succeeds (grantConsent env provider lvl s e p st) →
  let st1 := exec env (GrantConsent provider lvl s e p) st in
  succeeds (revokeConsent env' provider st1)
  ∧ exec env' (RevokeConsent provider) st1 = st.
Proof.
  intros Hreach Hsender Hno Hok st1. subst st1. simpl.
  assert (Hnone : consents st !! (msg_sender env, provider) = None).
  { destruct (consents st !! (msg_sender env, provider)) as [c|] eqn:Hk; [|done].
    apply (reachable_present _ _ _ Hreach) in Hk as Hex.
    unfold consents_at in Hno. rewrite Hk in Hno. simpl in Hno. congruence. }
  destruct (grantConsent_cases env provider lvl s e p st)
    as [[_ Hr]|[(_ & _ & Hr)|[(_ & _ & _ & Hr)|(Hp & _ & _ & Hr)]]];
    rewrite Hr in *; try (destruct Hok; discriminate). simpl.
  match goal with |- context [revokeConsent env' provider ?st1] =>
    destruct (revokeConsent_cases env' provider st1)
      as [[? _]|[(_ & Hex & _)|(_ & _ & ->)]]; [done| |]
  end.
  - rewrite Hsender, consents_at_insert, decide_True in Hex; done.
  - simpl. split; [by eexists|]. rewrite Hsender.
    rewrite delete_insert_eq, delete_id by done. by destruct st.
Qed.

Lemma grant_then_revoke_restores_witness :
  exec (mkEnv 1 30) (RevokeConsent 2)
    (exec (mkEnv 1 10) (GrantConsent 2 "full" 5 100 "checkup") init) = init.
Proof.
  destruct (grant_then_revoke_restores (mkEnv 1 10) (mkEnv 1 30) 2 "full" 5 100
              "checkup" init) as [_ Hst].
  - apply reach_init.
  - reflexivity.
  - reflexivity.
  - eexists. reflexivity.
  - exact Hst.
Defined.

(** X5.  In every reachable storage a stored grant has its start strictly
    before its end, and no grant is stored for the zero provider. *)
Theorem reachable_grant_window st a b :
  reachable st →
  exists_ (consents_at st a b) = true →
  startDate (consents_at st a b) < endDate (consents_at st a b) ∧ b ≠ 0.
Proof.
  intros Hreach. revert a b.
  induction Hreach as [|env call st Hreach IH]; intros a b.
  - unfold consents_at; simpl. rewrite lookup_empty. discriminate.
  - destruct call as [provider lvl s e p|provider| |]; simpl; try apply IH.
    + destruct (grantConsent_cases env provider lvl s e p st)
        as [[_ ->]|[(_ & _ & ->)|[(_ & _ & _ & ->)|(Hp & Hse & _ & ->)]]];
        simpl; try apply IH.
      rewrite consents_at_insert. case_decide as Hk; [|apply IH].
      injection Hk as <- <-. simpl. done.
    + destruct (revokeConsent_cases env provider st)
        as [[_ ->]|[(_ & _ & ->)|(_ & _ & ->)]]; simpl; try apply IH.
      rewrite consents_at_delete. case_decide; [discriminate | apply IH].
Qed.

Lemma reachable_grant_window_witness :
  let st := exec (mkEnv 1 10) (GrantConsent 2 "full" 5 100 "checkup") init in
  startDate (consents_at st 1 2) < endDate (consents_at st 1 2) ∧ 2 ≠ 0.
Proof.
  intros st. apply reachable_grant_window.
  - apply reach_step, reach_init.
  - reflexivity.
Defined.

End ConsentFacts.

(** ** DataHashContract *)

Module DataHashFacts.
Import DataHash.

Lemma dataHashes_at_insert m o k r dataId :
  dataHashes_at (mkState (<[k := r]> m) o) dataId =
    if decide (k = dataId) then r else dataHashes_at (mkState m o) dataId.
Proof. unfold dataHashes_at; simpl. rewrite lookup_insert. by case_decide. Qed.

Lemma ownerDataIds_at_insert m o k l a :
  ownerDataIds_at (mkState m (<[k := l]> o)) a =
    if decide (k = a) then l else ownerDataIds_at (mkState m o) a.
Proof. unfold ownerDataIds_at; simpl. rewrite lookup_insert. by case_decide. Qed.

(** The three member writes of the update branch amount to one write of
    the record with the owner and the flag it had. *)
Lemma update_writes dataId h ty ts st :
  set_dataType dataId ty (set_timestamp dataId ts (set_dataHash dataId h st)) =
    mkState (<[dataId := mkRecord h ts ty (owner (dataHashes_at st dataId))
                           (exists_ (dataHashes_at st dataId))]> (dataHashes st))
            (ownerDataIds st).
Proof.
  unfold set_dataType, set_timestamp, set_dataHash.
  rewrite !dataHashes_at_insert, !decide_True by done. simpl.
  by rewrite !insert_insert_eq.
Qed.

Lemma storeDataHash_cases env dataId h ty ts st :
  (dataId = "" ∧
     storeDataHash env dataId h ty ts st = Revert "Data ID cannot be empty")
  ∨ (dataId ≠ "" ∧ h = "" ∧
     storeDataHash env dataId h ty ts st = Revert "Data hash cannot be empty")
  ∨ (dataId ≠ "" ∧ h ≠ "" ∧ ty = "" ∧
     storeDataHash env dataId h ty ts st = Revert "Data type cannot be empty")
  ∨ (dataId ≠ "" ∧ h ≠ "" ∧ ty ≠ "" ∧
     exists_ (dataHashes_at st dataId) = true ∧
     storeDataHash env dataId h ty ts st =
       Ok (mkState (<[dataId := mkRecord h ts ty (owner (dataHashes_at st dataId)) true]>
                      (dataHashes st))
                   (ownerDataIds st),
           [DataHashUpdated dataId (dataHash (dataHashes_at st dataId)) h ts
                            (msg_sender env)]))
  ∨ (dataId ≠ "" ∧ h ≠ "" ∧ ty ≠ "" ∧
     exists_ (dataHashes_at st dataId) = false ∧
     storeDataHash env dataId h ty ts st =
       Ok (mkState (<[dataId := mkRecord h ts ty (msg_sender env) true]> (dataHashes st))
                   (<[msg_sender env := ownerDataIds_at st (msg_sender env) ++ [dataId]]>
                      (ownerDataIds st)),
           [DataHashStored dataId h ty ts (msg_sender env)])).
Proof.
  unfold storeDataHash, require.
  destruct (0 <? bytes_length dataId) eqn:Hid; simpl;
    [apply bytes_length_pos in Hid | left; split; [|done]].
  2: { destruct dataId; [done | discriminate]. }
  destruct (0 <? bytes_length h) eqn:Hh; simpl;
    [apply bytes_length_pos in Hh | right; left; split_and!; [done| |done]].
  2: { destruct h; [done | discriminate]. }
  destruct (0 <? bytes_length ty) eqn:Hty; simpl;
    [apply bytes_length_pos in Hty | do 2 right; left; split_and!; [done|done| |done]].
  2: { destruct ty; [done | discriminate]. }
  destruct (exists_ (dataHashes_at st dataId)) eqn:Hex.
  - do 3 right. left. split_and!; try done.
    rewrite update_writes, Hex. done.
  - do 4 right. split_and!; done.
Qed.

Lemma datahash_wf_init : wf init.
Proof.
  split_and!.
  - intros o. apply NoDup_nil_2.
  - intros o dataId. unfold ownerDataIds_at, dataHashes_at; simpl.
    rewrite !lookup_empty; simpl. split; [by intros ?%elem_of_nil | by intros [? _]].
  - intros dataId _. unfold dataHashes_at; simpl. by rewrite lookup_empty.
Qed.

Lemma datahash_wf_exec env c st : wf st → wf (exec env c st).
Proof.
  intros (Hnd & Hin & Hz). destruct c as [dataId h ty ts| | | | |]; simpl; try done.
  destruct st as [m o].
  destruct (storeDataHash_cases env dataId h ty ts (mkState m o))
    as [[_ ->]|[(_ & _ & ->)|[(_ & _ & _ & ->)|
        [(_ & _ & _ & Hex & ->)|(_ & _ & _ & Hex & ->)]]]]; simpl; try done.
  - (* update *)
    split_and!.
    + intros a. apply Hnd.
    + intros a id'. rewrite dataHashes_at_insert. case_decide as Heq.
      * subst id'. simpl. rewrite (Hin a dataId). rewrite Hex. tauto.
      * apply Hin.
    + intros id'. rewrite dataHashes_at_insert. case_decide; [done | apply Hz].
  - (* first registration *)
    assert (Hfresh : ∀ a, dataId ∉ ownerDataIds_at (mkState m o) a).
    { intros a Hel. apply Hin in Hel as [Ht _]. congruence. }
    split_and!.
    + intros a. rewrite ownerDataIds_at_insert. case_decide; [|apply Hnd].
      apply NoDup_app. split_and!; [apply Hnd| |apply NoDup_singleton].
      intros x Hx ->%list_elem_of_singleton. by apply (Hfresh (msg_sender env)).
    + intros a id'. rewrite ownerDataIds_at_insert, dataHashes_at_insert.
      destruct (decide (msg_sender env = a)) as [<-|Ha];
        destruct (decide (dataId = id')) as [<-|Hid]; simpl.
      * rewrite elem_of_app, list_elem_of_singleton. tauto.
      * rewrite elem_of_app, list_elem_of_singleton, Hin. split; [|tauto].
        intros [?|?]; [done|congruence].
      * split; [intros Hel; by apply Hfresh in Hel | intros [_ ?]; congruence].
      * apply Hin.
    + intros id'. rewrite dataHashes_at_insert. case_decide; [done | apply Hz].
Qed.

Lemma datahash_reachable_wf st : reachable st → wf st.
Proof. induction 1; [apply datahash_wf_init | by apply datahash_wf_exec]. Qed.

(** *** storeDataHash on an existing record *)

(** C1, as the code has it.  A call of [storeDataHash] with non-empty
    arguments on an id whose record exists returns, replaces the stored
    digest, type and timestamp, keeps the owner and the flag, leaves every
    other record and every id list as they were, and emits
    [DataHashUpdated] with the old and the new digest. *)
Theorem storeDataHash_update env dataId h ty ts st :
  dataId ≠ "" → h ≠ "" → ty ≠ "" →
  exists_ (dataHashes_at st dataId) = true →
  let old := dataHashes_at st dataId in
  let st' := exec env (StoreDataHash dataId h ty ts) st in
  storeDataHash env dataId h ty ts st =
    Ok (st', [DataHashUpdated dataId (dataHash old) h ts (msg_sender env)])
  ∧ dataHashes_at st' dataId = mkRecord h ts ty (owner old) true
  ∧ (∀ other, other ≠ dataId → dataHashes_at st' other = dataHashes_at st other)
  ∧ ownerDataIds st' = ownerDataIds st.
Proof.
  intros Hid Hh Hty Hex old st'. subst old st'. simpl.
  destruct (storeDataHash_cases env dataId h ty ts st)
    as [[? _]|[(_ & ? & _)|[(_ & _ & ? & _)|
        [(_ & _ & _ & _ & ->)|(_ & _ & _ & ? & _)]]]]; try congruence.
  simpl. split_and!; try done.
  - rewrite dataHashes_at_insert, decide_True; done.
  - intros other Hne. rewrite dataHashes_at_insert, decide_False by done.
    by destruct st.
Qed.

Lemma storeDataHash_update_witness :
  let st := exec (mkEnv 1 0) (StoreDataHash "rec-1" "abc123" "lab_result" 100) init in
  dataHashes_at (exec (mkEnv 2 0) (StoreDataHash "rec-1" "def456" "scan" 200) st) "rec-1"
    = mkRecord "def456" 200 "scan" 1 true.
Proof.
  intros st.
  destruct (storeDataHash_update (mkEnv 2 0) "rec-1" "def456" "scan" 200 st)
    as (_ & Hrec & _); [done|done|done|reflexivity|].
  exact Hrec.
Defined.

(** C1, as the claim has it, fails: an update overwrites the timestamp
    recorded at creation. *)
Lemma storeDataHash_update_replaces_timestamp :
  let st := exec (mkEnv 1 0) (StoreDataHash "rec-1" "abc123" "lab_result" 100) init in
  let st' := exec (mkEnv 1 0) (StoreDataHash "rec-1" "def456" "lab_result" 200) st in
  exists_ (dataHashes_at st "rec-1") = true
  ∧ timestamp (dataHashes_at st "rec-1") = 100
  ∧ timestamp (dataHashes_at st' "rec-1") = 200
  ∧ ¬ same_except_hash_and_type (dataHashes_at st "rec-1") (dataHashes_at st' "rec-1").
Proof.
  intros st st'. split_and!; try reflexivity.
  intros (Hts & _). vm_compute in Hts. discriminate.
Qed.

(** *** verifyDataHash *)

Section VerifyFacts.

Variable keccak256 : string → N.


End VerifyFacts.




(** *** The id lists of the owners *)

(** C10.  In a reachable storage, [storeDataHash] on an id whose record
    exists leaves every id list, hence every [getDataHashCount], as it
    was; on a new id it appends the id at the end of the caller's list
    and touches no other list.  Afterwards no list repeats an id, an id
    is listed under an owner exactly when its record exists with that
    owner, and each list extends the one before the call. *)
Theorem ownerDataIds_registration env dataId h ty ts st :
  reachable st →
  let r := storeDataHash env dataId h ty ts st in
  let st' := exec env (StoreDataHash dataId h ty ts) st in
  (exists_ (dataHashes_at st dataId) = true →
     ownerDataIds st' = ownerDataIds st
     ∧ ∀ o, getDataHashCount o st' = getDataHashCount o st)
  ∧ (exists_ (dataHashes_at st dataId) = false → succeeds r →
       ownerDataIds_at st' (msg_sender env) =
         ownerDataIds_at st (msg_sender env) ++ [dataId]
       ∧ ∀ o, o ≠ msg_sender env → ownerDataIds_at st' o = ownerDataIds_at st o)
  ∧ (∀ o, NoDup (ownerDataIds_at st' o))
  ∧ (∀ o id, id ∈ ownerDataIds_at st' o ↔
       exists_ (dataHashes_at st' id) = true ∧ owner (dataHashes_at st' id) = o)
  ∧ (∀ o, ownerDataIds_at st o `prefix_of` ownerDataIds_at st' o).
Proof.
  intros Hreach r st'.
  assert (Hwf' : wf st').
  { apply datahash_reachable_wf. subst st'. by apply reach_step. }
  destruct Hwf' as (Hnd' & Hin' & _).
  subst r st'. simpl in *.
  destruct (storeDataHash_cases env dataId h ty ts st)
    as [[_ Hr]|[(_ & _ & Hr)|[(_ & _ & _ & Hr)|
        [(_ & _ & _ & Hex & Hr)|(_ & _ & _ & Hex & Hr)]]]];
    rewrite Hr in *; simpl in *; outcome.
  1-3: split_and!; try done; intuition.
  - split_and!; try done. congruence.
  - split_and!; try done; [congruence| |].
    + intros _ _. destruct st as [m o]. split.
      * rewrite ownerDataIds_at_insert, decide_True; done.
      * intros a Ha. rewrite ownerDataIds_at_insert, decide_False; done.
    + intros a. destruct st as [m o]. rewrite ownerDataIds_at_insert.
      case_decide; [subst a; by apply prefix_app_r | done].
Qed.

Lemma ownerDataIds_registration_witness :
  let st := exec (mkEnv 1 0) (StoreDataHash "rec-1" "abc123" "lab_result" 100) init in
  NoDup (ownerDataIds_at
           (exec (mkEnv 2 5) (StoreDataHash "rec-1" "def456" "scan" 200) st) 1).
Proof.
  intros st.
  destruct (ownerDataIds_registration (mkEnv 2 5) "rec-1" "def456" "scan" 200 st)
    as (_ & _ & Hnd & _).
  - apply reach_step, reach_init.
  - apply Hnd.
Defined.

(** *** Further properties of the integrity registry *)

(** X6.  [storeDataHash] reverts exactly when the id, the digest or the
    type is empty, and returns otherwise; a reverted call writes nothing
    and emits nothing. *)
Theorem storeDataHash_validation env dataId h ty ts st :
  let r := storeDataHash env dataId h ty ts st in
  (reverts r ↔ dataId = "" ∨ h = "" ∨ ty = "")
  ∧ (succeeds r ↔ dataId ≠ "" ∧ h ≠ "" ∧ ty ≠ "")
  ∧ (reverts r → exec env (StoreDataHash dataId h ty ts) st = st ∧ emitted r = []).
Proof.
  intros r. subst r. simpl.
  destruct (storeDataHash_cases env dataId h ty ts st)
    as [[? ->]|[(? & ? & ->)|[(? & ? & ? & ->)|
        [(? & ? & ? & _ & ->)|(? & ? & ? & _ & ->)]]]];
    simpl; outcome; intuition.
Qed.

(** X7.  On an id without a record, [storeDataHash] with non-empty
    arguments creates the record with the caller as owner, emits
    [DataHashStored], leaves the other records as they were, raises the
    caller's count by one, and the id is what [getDataId] returns at the
    caller's last index. *)
Theorem storeDataHash_creates env dataId h ty ts st :
  dataId ≠ "" → h ≠ "" → ty ≠ "" →
  exists_ (dataHashes_at st dataId) = false →
  let st' := exec env (StoreDataHash dataId h ty ts) st in
  let count := N.of_nat (length (ownerDataIds_at st (msg_sender env))) in
  storeDataHash env dataId h ty ts st =
    Ok (st', [DataHashStored dataId h ty ts (msg_sender env)])
  ∧ getDataHashDetails dataId st' = Ok (h, ts, ty, msg_sender env, true)
  ∧ (∀ other, other ≠ dataId → dataHashes_at st' other = dataHashes_at st other)
  ∧ getDataHashCount (msg_sender env) st' = Ok (count + 1)
  ∧ getDataId (msg_sender env) count st' = Ok dataId.
Proof.
  intros Hid Hh Hty Hex st' count. subst st' count. simpl.
  destruct (storeDataHash_cases env dataId h ty ts st)
    as [[? _]|[(_ & ? & _)|[(_ & _ & ? & _)|
        [(_ & _ & _ & ? & _)|(_ & _ & _ & _ & ->)]]]]; try congruence.
  simpl. destruct st as [m o].
  unfold getDataHashDetails, getDataHashCount, getDataId, require.
  rewrite !ownerDataIds_at_insert, !decide_True by done.
  split_and!; try done.
  - rewrite dataHashes_at_insert, decide_True; done.
  - intros other Hne. rewrite dataHashes_at_insert, decide_False; done.
  - f_equal. rewrite length_app. simpl. lia.
  - rewrite length_app. simpl.
    destruct (N.ltb_spec (N.of_nat (length (ownerDataIds_at (mkState m o) (msg_sender env))))
                (N.of_nat (length (ownerDataIds_at (mkState m o) (msg_sender env)) + 1)));
      [|lia].
    simpl. rewrite Nat2N.id, list_lookup_middle; done.
Qed.

Lemma storeDataHash_creates_witness :
  getDataId 1 0 (exec (mkEnv 1 0) (StoreDataHash "rec-1" "abc123" "lab_result" 100) init)
    = Ok "rec-1".
Proof.
  destruct (storeDataHash_creates (mkEnv 1 0) "rec-1" "abc123" "lab_result" 100 init)
    as (_ & _ & _ & _ & Hid); [done|done|done|reflexivity|].
  exact Hid.
Defined.

(** X8.  In a reachable storage [getDataId] reverts exactly when the index
    is not below [getDataHashCount]; below it returns, without trapping,
    the id at that position, and that id has a record owned by the owner
    asked for. *)
Theorem getDataId_bounds o index st :
  reachable st →
  let count := N.of_nat (length (ownerDataIds_at st o)) in
  getDataHashCount o st = Ok count
  ∧ (count ≤ index → getDataId o index st = Revert "Index out of bounds")
  ∧ (index < count →
       ∃ dataId h ts ty,
         getDataId o index st = Ok dataId
         ∧ ownerDataIds_at st o !! N.to_nat index = Some dataId
         ∧ getDataHashDetails dataId st = Ok (h, ts, ty, o, true)).
Proof.
  intros Hreach count. subst count.
  destruct (datahash_reachable_wf st Hreach) as (_ & Hin & _).
  unfold getDataId, require. split_and!; [done| |].
  - intros Hge. destruct (N.ltb_spec index (N.of_nat (length (ownerDataIds_at st o))));
      [lia | done].
  - intros Hlt. destruct (N.ltb_spec index (N.of_nat (length (ownerDataIds_at st o))));
      [|lia]. simpl.
    destruct (lookup_lt_is_Some_2 (ownerDataIds_at st o) (N.to_nat index))
      as [dataId Hid]; [lia|].
    rewrite Hid.
    assert (Hel : dataId ∈ ownerDataIds_at st o) by (by eapply list_elem_of_lookup_2).
    apply Hin in Hel as [Hex Hown].
    exists dataId, (dataHash (dataHashes_at st dataId)),
      (timestamp (dataHashes_at st dataId)), (dataType (dataHashes_at st dataId)).
    split_and!; try done.
    unfold getDataHashDetails. by rewrite Hex, Hown.
Qed.

Lemma getDataId_bounds_witness :
  getDataId 1 3 (exec (mkEnv 1 0) (StoreDataHash "rec-1" "abc123" "lab_result" 100) init)
    = Revert "Index out of bounds".
Proof.
  destruct (getDataId_bounds 1 3
              (exec (mkEnv 1 0) (StoreDataHash "rec-1" "abc123" "lab_result" 100) init))
    as (_ & Hout & _).
  - apply reach_step, reach_init.
  - apply Hout. vm_compute. discriminate.
Defined.

(** A call keeps every record that exists, with its owner, and extends
    every id list. *)
Lemma exec_keeps_record env c st dataId :
  exists_ (dataHashes_at st dataId) = true →
  exists_ (dataHashes_at (exec env c st) dataId) = true
  ∧ owner (dataHashes_at (exec env c st) dataId) = owner (dataHashes_at st dataId).
Proof.
  intros Hex. destruct c as [dataId' h ty ts| | | | |]; simpl; try done.
  destruct st as [m o].
  destruct (storeDataHash_cases env dataId' h ty ts (mkState m o))
    as [[_ ->]|[(_ & _ & ->)|[(_ & _ & _ & ->)|
        [(_ & _ & _ & Hex' & ->)|(_ & _ & _ & Hex' & ->)]]]]; simpl; try done.
  - rewrite dataHashes_at_insert. case_decide; [by subst|done].
  - rewrite dataHashes_at_insert. case_decide; [subst; congruence|done].
Qed.

Lemma exec_ids_prefix env c st o :
  ownerDataIds_at st o `prefix_of` ownerDataIds_at (exec env c st) o.
Proof.
  destruct c as [dataId h ty ts| | | | |]; simpl; try done.
  destruct st as [m ids].
  destruct (storeDataHash_cases env dataId h ty ts (mkState m ids))
    as [[_ ->]|[(_ & _ & ->)|[(_ & _ & _ & ->)|
        [(_ & _ & _ & _ & ->)|(_ & _ & _ & _ & ->)]]]]; simpl; try done.
  rewrite ownerDataIds_at_insert. case_decide; [subst; by apply prefix_app_r | done].
Qed.

(** X9.  No run of calls removes a record or changes its owner, whoever
    sends the calls. *)
Theorem run_keeps_record calls st dataId :
  exists_ (dataHashes_at st dataId) = true →
  dataHashExists dataId (run calls st) = Ok true
  ∧ owner (dataHashes_at (run calls st) dataId) = owner (dataHashes_at st dataId).
Proof.
  revert st. induction calls as [|[env c] calls IH]; intros st Hex; simpl.
  - unfold dataHashExists. by rewrite Hex.
  - destruct (exec_keeps_record env c st dataId Hex) as [Hex' Hown'].
    destruct (IH _ Hex') as [Hrun Hown]. split; [done|]. by rewrite Hown.
Qed.

Lemma run_keeps_record_witness :
  let st := exec (mkEnv 1 0) (StoreDataHash "rec-1" "abc123" "lab_result" 100) init in
  owner (dataHashes_at (run [(mkEnv 2 5, StoreDataHash "rec-1" "def456" "scan" 200)] st)
           "rec-1") = owner (dataHashes_at st "rec-1").
Proof.
  intros st.
  destruct (run_keeps_record [(mkEnv 2 5, StoreDataHash "rec-1" "def456" "scan" 200)]
              st "rec-1") as [_ Hown]; [reflexivity|].
  exact Hown.
Defined.

(** X10.  In a reachable storage an id without a record reads as the zero
    record through [getDataHashDetails], and [dataHashExists] is false. *)
Theorem getDataHashDetails_unregistered dataId st :
  reachable st →
  exists_ (dataHashes_at st dataId) = false →
  getDataHashDetails dataId st = Ok ("", 0, "", 0, false)
  ∧ dataHashExists dataId st = Ok false.
Proof.
  intros Hreach Hex. destruct (datahash_reachable_wf st Hreach) as (_ & _ & Hz).
  unfold getDataHashDetails, dataHashExists. by rewrite (Hz dataId Hex).
Qed.

Lemma getDataHashDetails_unregistered_witness :
  getDataHashDetails "unknown-id"
      (exec (mkEnv 1 0) (StoreDataHash "rec-1" "abc123" "lab_result" 100) init)
    = Ok ("", 0, "", 0, false).
Proof.
  destruct (getDataHashDetails_unregistered "unknown-id"
              (exec (mkEnv 1 0) (StoreDataHash "rec-1" "abc123" "lab_result" 100) init))
    as [Hd _].
  - apply reach_step, reach_init.
  - reflexivity.
  - exact Hd.
Defined.

(** X11.  After a [storeDataHash] that returns, on a new id or an existing
    one, [verifyDataHash] with the digest just stored answers true and
    returns the digest, timestamp and type of that call, whatever function
    [keccak256] is. *)
Theorem store_then_verify keccak256 env dataId h ty ts st :
  succeeds (storeDataHash env dataId h ty ts st) →
  verifyDataHash keccak256 dataId h (exec env (StoreDataHash dataId h ty ts) st) =
    Ok (true, h, ts, ty).
Proof.
  intros Hok. simpl. destruct st as [m o].
  destruct (storeDataHash_cases env dataId h ty ts (mkState m o))
    as [[_ Hr]|[(_ & _ & Hr)|[(_ & _ & _ & Hr)|
        [(_ & _ & _ & _ & Hr)|(_ & _ & _ & _ & Hr)]]]];
    rewrite Hr in *; try (destruct Hok; discriminate); simpl;
    unfold verifyDataHash; rewrite dataHashes_at_insert, decide_True by done;
    simpl; by rewrite N.eqb_refl.
Qed.

Lemma store_then_verify_witness :
  verifyDataHash (λ _, 0) "rec-1" "abc123"
      (exec (mkEnv 1 0) (StoreDataHash "rec-1" "abc123" "lab_result" 100) init)
    = Ok (true, "abc123", 100, "lab_result").
Proof.
  apply (store_then_verify (λ _, 0) (mkEnv 1 0) "rec-1" "abc123" "lab_result" 100 init).
  eexists. reflexivity.
Defined.

(** X12.  The enumeration of an owner is stable: an id that [getDataId]
    returns at an index is returned at that index after any run of calls,
    and [getDataHashCount] never goes down. *)
Theorem run_keeps_enumeration calls st o index dataId :
  getDataId o index st = Ok dataId →
  getDataId o index (run calls st) = Ok dataId
  ∧ ∃ n n', getDataHashCount o st = Ok n
      ∧ getDataHashCount o (run calls st) = Ok n' ∧ n ≤ n'.
Proof.
  intros Hget.
  assert (Hpre : ownerDataIds_at st o `prefix_of` ownerDataIds_at (run calls st) o).
  { clear Hget. revert st. induction calls as [|[env c] calls IH]; intros st; [done|].
    simpl. etrans; [apply (exec_ids_prefix env c)|apply IH]. }
  split.
  2: { do 2 eexists. split_and!; [done|done|]. apply prefix_length in Hpre. lia. }
  unfold getDataId, require in *.
  destruct (N.ltb_spec index (N.of_nat (length (ownerDataIds_at st o)))) as [Hlt|];
    [|discriminate]. simpl in Hget.
  destruct (ownerDataIds_at st o !! N.to_nat index) as [d|] eqn:Hd; [|discriminate].
  injection Hget as ->.
  apply prefix_length in Hpre as Hlen.
  destruct (N.ltb_spec index (N.of_nat (length (ownerDataIds_at (run calls st) o))));
    [|lia]. simpl.
  by rewrite (prefix_lookup_Some _ _ _ _ Hd Hpre).
Qed.

Lemma run_keeps_enumeration_witness :
  let st := exec (mkEnv 1 0) (StoreDataHash "rec-1" "abc123" "lab_result" 100) init in
  getDataId 1 0 (run [(mkEnv 1 5, StoreDataHash "rec-2" "def456" "scan" 200)] st)
    = Ok "rec-1".
Proof.
  intros st.
  destruct (run_keeps_enumeration [(mkEnv 1 5, StoreDataHash "rec-2" "def456" "scan" 200)]
              st 1 0 "rec-1") as [Hget _]; [reflexivity|].
  exact Hget.
Defined.

(** X13.  In every reachable storage a record that exists has a non-empty
    id, digest and type. *)
Theorem reachable_record_nonempty st dataId :
  reachable st →
  exists_ (dataHashes_at st dataId) = true →
  dataId ≠ ""
  ∧ dataHash (dataHashes_at st dataId) ≠ ""
  ∧ dataType (dataHashes_at st dataId) ≠ "".
Proof.
  intros Hreach. revert dataId.
  induction Hreach as [|env c st Hreach IH]; intros dataId.
  - unfold dataHashes_at; simpl. rewrite lookup_empty. discriminate.
  - destruct c as [dataId' h ty ts| | | | |]; simpl; try apply IH.
    destruct st as [m o].
    destruct (storeDataHash_cases env dataId' h ty ts (mkState m o))
      as [[_ ->]|[(_ & _ & ->)|[(_ & _ & _ & ->)|
          [(? & ? & ? & _ & ->)|(? & ? & ? & _ & ->)]]]]; simpl; try apply IH.
    + rewrite dataHashes_at_insert. case_decide; [by subst | apply IH].
    + rewrite dataHashes_at_insert. case_decide; [by subst | apply IH].
Qed.

Lemma reachable_record_nonempty_witness :
  let st := exec (mkEnv 1 0) (StoreDataHash "rec-1" "abc123" "lab_result" 100) init in
  "rec-1" ≠ "" ∧ dataHash (dataHashes_at st "rec-1") ≠ ""
  ∧ dataType (dataHashes_at st "rec-1") ≠ "".
Proof.
  intros st. apply reachable_record_nonempty.
  - apply reach_step, reach_init.
  - reflexivity.
Defined.

End DataHashFacts.

(** ** AuditContract *)

Module AuditFacts.
Import Audit.

(** *** The bounded scans *)

Section ScanFacts.

Variable logs : list AccessLog.
Variables startTime endTime maxResults : uint256.

Abbreviation scan := (scan logs startTime endTime).
Abbreviation range_count := (range_count logs startTime endTime maxResults).
Abbreviation range_fill := (range_fill logs startTime endTime).
Abbreviation single_pass := (single_pass logs startTime endTime maxResults).
Abbreviation in_range := (in_range startTime endTime).
Abbreviation in_range_at := (in_range_at logs startTime endTime).

Lemma scan_zero rest : scan rest 0 = Ok [].
Proof. by destruct rest. Qed.

(** The first pass counts what [scan] collects. *)
Lemma range_count_scan rest count :
  count ≤ maxResults →
  range_count rest count =
    (λ l, count + N.of_nat (length l)) <$> scan rest (N.to_nat (maxResults - count)).
Proof.
  revert count. induction rest as [|logIndex rest IH]; intros count Hle; simpl.
  - f_equal. lia.
  - destruct (N.ltb_spec count maxResults) as [Hlt|Hge].
    + replace (N.to_nat (maxResults - count))
        with (S (N.to_nat (maxResults - (count + 1)))) by lia.
      destruct (accessLogs_at logs logIndex) as [log| |]; simpl; try done.
      destruct (in_range log).
      * rewrite IH by lia.
        destruct (scan rest _) as [l| |]; simpl; try done.
        f_equal. lia.
      * rewrite IH by lia.
        replace (S (N.to_nat (maxResults - (count + 1))))
          with (N.to_nat (maxResults - count)) by lia.
        done.
    + replace (N.to_nat (maxResults - count)) with O by lia. simpl.
      f_equal. lia.
Qed.

(** The second pass writes what [scan] collects into the slots from
    [count] on. *)
Lemma range_fill_scan rest count result :
  (N.to_nat count ≤ length result)%nat →
  range_fill rest count result =
    (λ l, take (N.to_nat count) result ++ l
            ++ drop (N.to_nat count + length l) result)
      <$> scan rest (length result - N.to_nat count).
Proof.
  revert count result.
  induction rest as [|logIndex rest IH]; intros count result Hle; simpl.
  - f_equal. by rewrite Nat.add_0_r, take_drop.
  - destruct (N.ltb_spec count (N.of_nat (length result))) as [Hlt|Hge].
    + replace (length result - N.to_nat count)%nat
        with (S (length result - N.to_nat (count + 1))) by lia.
      destruct (accessLogs_at logs logIndex) as [log| |]; simpl; try done.
      destruct (in_range log).
      * rewrite IH by (rewrite length_insert; lia).
        rewrite length_insert.
        destruct (scan rest _) as [l| |]; simpl; try done.
        f_equal.
        replace (N.to_nat (count + 1)) with (S (N.to_nat count)) by lia.
        rewrite (take_S_r _ _ logIndex)
          by (apply list_lookup_insert_eq; lia).
        rewrite take_insert_ge by lia.
        rewrite drop_insert_lt by lia.
        rewrite <- app_assoc. simpl.
        by rewrite Nat.add_succ_r.
      * rewrite IH by lia.
        replace (S (length result - N.to_nat (count + 1)))
          with (length result - N.to_nat count)%nat by lia.
        done.
    + replace (length result - N.to_nat count)%nat with O by lia. simpl.
      f_equal. by rewrite Nat.add_0_r, take_drop.
Qed.

(** The single pass appends what [scan] collects. *)
Lemma single_pass_scan rest collected :
  single_pass rest collected =
    (λ l, collected ++ l)
      <$> scan rest (N.to_nat maxResults - length collected).
Proof.
  revert collected. induction rest as [|logIndex rest IH]; intros collected; simpl.
  - f_equal. by rewrite app_nil_r.
  - destruct (N.ltb_spec (N.of_nat (length collected)) maxResults) as [Hlt|Hge].
    + replace (N.to_nat maxResults - length collected)%nat
        with (S (N.to_nat maxResults - S (length collected))) by lia.
      destruct (accessLogs_at logs logIndex) as [log| |]; simpl; try done.
      destruct (in_range log).
      * rewrite IH, length_app. simpl.
        replace (length collected + 1)%nat with (S (length collected)) by lia.
        destruct (scan rest _) as [l| |]; simpl; try done.
        by rewrite <- app_assoc.
      * rewrite IH.
        replace (S (N.to_nat maxResults - S (length collected)))
          with (N.to_nat maxResults - length collected)%nat by lia.
        done.
    + replace (N.to_nat maxResults - length collected)%nat with O by lia.
      simpl. f_equal. by rewrite app_nil_r.
Qed.

(** Asking [scan] for as many positions as it found finds the same. *)
Lemma scan_length_idem rest n l :
  scan rest n = Ok l → scan rest (length l) = Ok l.
Proof.
  revert n l. induction rest as [|logIndex rest IH]; intros n l; simpl.
  - by intros [= <-].
  - destruct n as [|n]; [by intros [= <-]|].
    destruct (accessLogs_at logs logIndex) as [log| |] eqn:Hlog; simpl; try done.
    destruct (in_range log) eqn:Hin.
    + destruct (scan rest n) as [l'| |] eqn:Hs; simpl; try done.
      intros [= <-]. simpl. by rewrite (IH _ _ Hs).
    + intros Hs. destruct (length l) eqn:Hlen.
      * by destruct l.
      * rewrite <- Hlen. by eapply IH.
Qed.

Lemma scan_length rest n l : scan rest n = Ok l → (length l ≤ n)%nat.
Proof.
  revert n l. induction rest as [|logIndex rest IH]; intros n l; simpl.
  - intros [= <-]. simpl. lia.
  - destruct n as [|n]; [intros [= <-]; simpl; lia|].
    destruct (accessLogs_at logs logIndex) as [log| |]; simpl; try done.
    destruct (in_range log).
    + destruct (scan rest n) as [l'| |] eqn:Hs; simpl; try done.
      intros [= <-]. simpl. apply IH in Hs. lia.
    + apply IH.
Qed.

Lemma scan_sublist rest n l : scan rest n = Ok l → l `sublist_of` rest.
Proof.
  revert n l. induction rest as [|logIndex rest IH]; intros n l; simpl.
  - by intros [= <-].
  - destruct n as [|n]; [intros [= <-]; apply sublist_nil_l|].
    destruct (accessLogs_at logs logIndex) as [log| |]; simpl; try done.
    destruct (in_range log).
    + destruct (scan rest n) as [l'| |] eqn:Hs; simpl; try done.
      intros [= <-]. apply sublist_skip. by eapply IH.
    + intros Hs. apply sublist_cons. by eapply IH.
Qed.

Lemma scan_in_range rest n l logIndex :
  scan rest n = Ok l → logIndex ∈ l → in_range_at logIndex = true.
Proof.
  revert n l. induction rest as [|i rest IH]; intros n l; simpl.
  - intros [= <-]. by intros ?%elem_of_nil.
  - destruct n as [|n]; [intros [= <-]; by intros ?%elem_of_nil|].
    unfold accessLogs_at at 1.
    destruct (logs !! N.to_nat i) as [log|] eqn:Hlog; simpl; try done.
    destruct (in_range log) eqn:Hin.
    + destruct (scan rest n) as [l'| |] eqn:Hs; simpl; try done.
      intros [= <-]. intros [->|Hel]%elem_of_cons.
      * unfold Audit.in_range_at. by rewrite Hlog.
      * by eapply IH.
    + apply IH.
Qed.

(** Where every position of [rest] is within the log, [scan] returns the
    first [n] positions in range. *)
Lemma scan_take_filter rest n :
  Forall (λ i, is_Some (logs !! N.to_nat i)) rest →
  scan rest n = Ok (take n (List.filter in_range_at rest)).
Proof.
  intros Hall. revert n. induction Hall as [|i rest [log Hlog] _ IH]; intros n; simpl.
  - by rewrite take_nil.
  - unfold Audit.in_range_at at 1. rewrite Hlog.
    destruct n as [|n]; [done|].
    unfold accessLogs_at. rewrite Hlog. simpl.
    destruct (in_range log); [|apply IH].
    rewrite IH. done.
Qed.

(** The two passes of [getAccessLogsInTimeRange] return what [scan] does. *)
Lemma two_pass_scan rest :
  (count ← range_count rest 0;
   range_fill rest 0 (replicate (N.to_nat count) 0)) =
    scan rest (N.to_nat maxResults).
Proof.
  rewrite range_count_scan by lia. rewrite N.sub_0_r.
  destruct (scan rest (N.to_nat maxResults)) as [l| |] eqn:Hs; simpl; try done.
  rewrite range_fill_scan by (simpl; lia).
  rewrite length_replicate. simpl.
  replace (N.to_nat (0 + N.of_nat (length l))) with (length l) by lia.
  replace (length l - N.to_nat 0)%nat with (length l) by lia.
  rewrite (scan_length_idem _ _ _ Hs). simpl.
  rewrite drop_ge by (rewrite length_replicate; lia).
  by rewrite app_nil_r.
Qed.

End ScanFacts.

(** *** logAccess and the storage invariant *)

Lemma logAccess_cases env p a rid ty ts st :
  (∃ reason, logAccess env p a rid ty ts st = Revert reason
     ∧ (p = 0 ∨ a = 0 ∨ rid = "" ∨ ty = ""))
  ∨ (p ≠ 0 ∧ a ≠ 0 ∧ rid ≠ "" ∧ ty ≠ "" ∧
     logAccess env p a rid ty ts st =
       Ok (mkState (accessLogs st ++ [mkLog p a rid ty ts])
             (<[p := patientAccessLogs_at st p ++ [N.of_nat (length (accessLogs st))]]>
                (patientAccessLogs st)),
           [AccessLogged p a rid ty ts])).
Proof.
  unfold logAccess, require.
  destruct (N.eqb_spec p 0) as [->|Hp]; simpl; [left; eexists; eauto|].
  destruct (N.eqb_spec a 0) as [->|Ha]; simpl; [left; eexists; eauto|].
  destruct (0 <? bytes_length rid) eqn:Hrid; simpl.
  2: { left; eexists; split; [done|]. destruct rid; [eauto | discriminate]. }
  destruct (0 <? bytes_length ty) eqn:Hty; simpl.
  2: { left; eexists; split; [done|]. destruct ty; [eauto 6 | discriminate]. }
  apply bytes_length_pos in Hrid, Hty.
  right. split_and!; try done. do 6 f_equal.
  rewrite length_app. simpl. lia.
Qed.

Lemma patientAccessLogs_at_insert logs logs' m k l who :
  patientAccessLogs_at (mkState logs (<[k := l]> m)) who =
    if decide (k = who) then l else patientAccessLogs_at (mkState logs' m) who.
Proof. unfold patientAccessLogs_at; simpl. rewrite lookup_insert. by case_decide. Qed.

Section PositionsFacts.

Variable key : AccessLog → address.

Lemma positions_from_app i who logs1 logs2 :
  positions_from key i who (logs1 ++ logs2) =
    positions_from key i who logs1
      ++ positions_from key (i + N.of_nat (length logs1)) who logs2.
Proof.
  revert i. induction logs1 as [|log logs1 IH]; intros i; simpl.
  - by rewrite N.add_0_r.
  - rewrite IH. replace (i + 1 + N.of_nat (length logs1))
      with (i + N.pos (Pos.of_succ_nat (length logs1))) by lia.
    by destruct (key log =? who).
Qed.

Lemma positions_from_elem i who logs n :
  n ∈ positions_from key i who logs →
  i ≤ n ∧ ∃ log, logs !! N.to_nat (n - i) = Some log ∧ key log = who.
Proof.
  revert i. induction logs as [|log logs IH]; intros i; simpl.
  - by intros ?%elem_of_nil.
  - intros Hel.
    assert (Hcase : (n = i ∧ key log = who)
                    ∨ n ∈ positions_from key (i + 1) who logs).
    { destruct (N.eqb_spec (key log) who); [|by right].
      apply elem_of_cons in Hel as [->|?]; [by left | by right]. }
    destruct Hcase as [[-> Hp]|Hin].
    + split; [lia|]. exists log. by rewrite N.sub_diag.
    + apply IH in Hin as (Hle & log' & Hlog' & Hp). split; [lia|].
      exists log'. split; [|done].
      replace (N.to_nat (n - i)) with (S (N.to_nat (n - (i + 1)))) by lia.
      done.
Qed.

Lemma positions_from_sorted i who logs :
  StronglySorted N.lt (positions_from key i who logs).
Proof.
  revert i. induction logs as [|log logs IH]; intros i; simpl.
  - constructor.
  - destruct (key log =? who); [|apply IH].
    constructor; [apply IH|].
    apply Forall_forall. intros n Hn%positions_from_elem. lia.
Qed.

End PositionsFacts.

Lemma sublist_sorted (l1 l2 : list N) :
  l1 `sublist_of` l2 → StronglySorted N.lt l2 → StronglySorted N.lt l1.
Proof.
  induction 1 as [|x l1 l2 Hsub IH|x l1 l2 Hsub IH]; intros Hs; [done| |].
  - apply StronglySorted_cons in Hs as [Hall Hs]. constructor; [by apply IH|].
    apply Forall_forall. intros y Hy.
    eapply Forall_forall in Hall; [done|]. by eapply elem_of_sublist.
  - apply StronglySorted_cons in Hs as [_ Hs]. by apply IH.
Qed.

Lemma audit_wf_init : wf init.
Proof. intros p. unfold patientAccessLogs_at; simpl. by rewrite lookup_empty. Qed.

Lemma audit_wf_exec env c st : wf st → wf (exec env c st).
Proof.
  intros Hwf. destruct c as [p a rid ty ts| | | |]; simpl; try done.
  destruct (logAccess_cases env p a rid ty ts st)
    as [(reason & -> & _)|(_ & _ & _ & _ & ->)]; simpl; [done|].
  intros who. destruct st as [logs m]. simpl.
  rewrite (patientAccessLogs_at_insert _ logs), positions_from_app. simpl.
  rewrite (Hwf who), N.add_0_l. simpl.
  case_decide as Heq.
  - subst who. by rewrite N.eqb_refl, (Hwf p).
  - destruct (N.eqb_spec p who); [done|]. by rewrite app_nil_r.
Qed.

Lemma audit_reachable_wf st : reachable st → wf st.
Proof. induction 1; [apply audit_wf_init | by apply audit_wf_exec]. Qed.

(** No call removes or changes an entry of the log. *)
Lemma exec_keeps_entries env c st log n :
  sequence_of st log n → sequence_of (exec env c st) log n.
Proof.
  unfold sequence_of. intros Hn.
  destruct c as [p a rid ty ts| | | |]; simpl; try done.
  destruct (logAccess_cases env p a rid ty ts st)
    as [(reason & -> & _)|(_ & _ & _ & _ & ->)]; simpl; [done|].
  by apply lookup_app_l_Some.
Qed.

Lemma run_keeps_entries calls st log n :
  sequence_of st log n → sequence_of (run calls st) log n.
Proof.
  revert st. induction calls as [|[env c] calls IH]; intros st Hn; [done|].
  simpl. apply IH. by apply exec_keeps_entries.
Qed.

(** *** getAccessLogsByAccessor *)

Section ByAccessorFacts.

Variable who : address.
Variable maxResults : uint256.

Lemma accessor_count_positions rest i count :
  count ≤ maxResults →
  accessor_count who maxResults rest count =
    count + N.of_nat (length (take (N.to_nat (maxResults - count))
                                (positions_from accessor i who rest))).
Proof.
  revert i count. induction rest as [|log rest IH]; intros i count Hle; simpl.
  - rewrite take_nil. simpl. lia.
  - destruct (N.ltb_spec count maxResults) as [Hlt|Hge].
    + replace (N.to_nat (maxResults - count))
        with (S (N.to_nat (maxResults - (count + 1)))) by lia.
      destruct (accessor log =? who).
      * rewrite (IH (i + 1)) by lia. simpl. lia.
      * rewrite (IH (i + 1)) by lia.
        replace (S (N.to_nat (maxResults - (count + 1))))
          with (N.to_nat (maxResults - count)) by lia.
        done.
    + replace (N.to_nat (maxResults - count)) with O by lia.
      rewrite take_0. simpl. lia.
Qed.

Lemma accessor_fill_positions rest i count result :
  (N.to_nat count ≤ length result)%nat →
  let found := take (length result - N.to_nat count)
                 (positions_from accessor i who rest) in
  accessor_fill who rest i count result =
    take (N.to_nat count) result ++ found
      ++ drop (N.to_nat count + length found) result.
Proof.
  revert i count result.
  induction rest as [|log rest IH]; intros i count result Hle; simpl.
  - rewrite take_nil. simpl. by rewrite Nat.add_0_r, take_drop.
  - destruct (N.ltb_spec count (N.of_nat (length result))) as [Hlt|Hge].
    + replace (length result - N.to_nat count)%nat
        with (S (length result - N.to_nat (count + 1))) by lia.
      destruct (accessor log =? who).
      * rewrite (IH (i + 1)) by (rewrite length_insert; lia).
        rewrite length_insert. simpl.
        replace (N.to_nat (count + 1)) with (S (N.to_nat count)) by lia.
        rewrite (take_S_r _ _ i) by (apply list_lookup_insert_eq; lia).
        rewrite take_insert_ge by lia.
        rewrite drop_insert_lt by lia.
        rewrite <- app_assoc. simpl.
        by rewrite Nat.add_succ_r.
      * rewrite (IH (i + 1)) by lia.
        replace (S (length result - N.to_nat (count + 1)))
          with (length result - N.to_nat count)%nat by lia.
        done.
    + replace (length result - N.to_nat count)%nat with O by lia.
      rewrite take_0. simpl. by rewrite Nat.add_0_r, take_drop.
Qed.

(** The two passes of [getAccessLogsByAccessor] return the first
    [maxResults] positions of the accessor's entries in the primary log. *)
Lemma getAccessLogsByAccessor_positions st :
  getAccessLogsByAccessor who maxResults st =
    Ok (take (N.to_nat maxResults) (positions_from accessor 0 who (accessLogs st))).
Proof.
  unfold getAccessLogsByAccessor. f_equal.
  rewrite (accessor_count_positions _ 0) by lia.
  rewrite N.sub_0_r, N.add_0_l, Nat2N.id.
  set (found := take _ _).
  rewrite accessor_fill_positions by (simpl; lia).
  rewrite length_replicate. simpl. rewrite Nat.sub_0_r.
  assert (Hfound : take (length found) (positions_from accessor 0 who (accessLogs st))
                   = found).
  { subst found. rewrite length_take.
    rewrite <- take_take. by rewrite (take_ge _ (length _)). }
  rewrite Hfound.
  rewrite drop_ge by (rewrite length_replicate; lia).
  by rewrite app_nil_r.
Qed.

End ByAccessorFacts.

(** C2, as the code has it.  A [logAccess] that returns appends exactly
    one entry to the log; the entry gets the next sequence number, above
    every earlier one; the count of the patient grows by one and the
    number is appended to the index of the patient, the only index the
    storage keeps; the index under every other address is as before; and
    the positions of the entries of an accessor are found by scanning the
    log; and no run of calls, from any storage, changes or removes an
    entry. *)
Theorem logAccess_appends env p a rid ty ts st :
  succeeds (logAccess env p a rid ty ts st) →
  let st' := exec env (LogAccess p a rid ty ts) st in
  let log := mkLog p a rid ty ts in
  let n := N.of_nat (length (accessLogs st)) in
  accessLogs st' = accessLogs st ++ [log]
  ∧ sequence_of st' log n
  ∧ (∀ log' m, sequence_of st log' m → m < n ∧ sequence_of st' log' m)
  ∧ getAccessLogCount p st' = (λ c, c + 1) <$> getAccessLogCount p st
  ∧ index_appended st st' p n
  ∧ (∀ who, who ≠ p → patientAccessLogs_at st' who = patientAccessLogs_at st who)
  ∧ (∀ who maxResults,
       getAccessLogsByAccessor who maxResults st' =
         Ok (take (N.to_nat maxResults)
               (positions_from accessor 0 who (accessLogs st ++ [log]))))
  ∧ emitted (logAccess env p a rid ty ts st) = [AccessLogged p a rid ty ts]
  ∧ (∀ calls s log' m, sequence_of s log' m → sequence_of (run calls s) log' m).
Proof.
  intros Hok st' log n.
  assert (Hkeep : ∀ log' m, sequence_of st log' m → sequence_of st' log' m).
  { intros log' m. apply exec_keeps_entries. }
  assert (Hby := λ who maxResults, getAccessLogsByAccessor_positions who maxResults st').
  subst st' log n. simpl in *.
  destruct (logAccess_cases env p a rid ty ts st)
    as [(reason & Hr & _)|(_ & _ & _ & _ & Hr)]; rewrite Hr in *;
    [destruct Hok; discriminate|].
  simpl in *. unfold sequence_of, index_appended, getAccessLogCount in *. simpl.
  destruct st as [logs m]. simpl in *.
  split_and!; try done.
  - rewrite Nat2N.id. by apply list_lookup_middle.
  - intros log' k Hk. split; [|by apply Hkeep].
    apply lookup_lt_Some in Hk. lia.
  - rewrite (patientAccessLogs_at_insert _ logs), decide_True by done.
    rewrite length_app. simpl. f_equal. lia.
  - by rewrite (patientAccessLogs_at_insert _ logs), decide_True.
  - intros who Hne. by rewrite (patientAccessLogs_at_insert _ logs), decide_False.
  - intros calls s log' k. apply run_keeps_entries.
Qed.

Lemma logAccess_appends_witness :
  accessLogs (exec (mkEnv 9 0) (LogAccess 1 2 "rec-1" "view" 10) init) =
    [mkLog 1 2 "rec-1" "view" 10].
Proof.
  destruct (logAccess_appends (mkEnv 9 0) 1 2 "rec-1" "view" 10 init) as [Happ _].
  - eexists. reflexivity.
  - exact Happ.
Defined.

(** C2, as the claim has it, fails: the storage keeps no index by
    accessor, and the one index it keeps is not written under the
    accessor's address. *)
Lemma logAccess_keeps_no_accessor_index :
  let st' := exec (mkEnv 9 0) (LogAccess 1 2 "rec-1" "view" 10) init in
  succeeds (logAccess (mkEnv 9 0) 1 2 "rec-1" "view" 10 init)
  ∧ patientAccessLogs st' = {[ 1 := [0] ]}
  ∧ index_appended init st' 1 0
  ∧ ¬ index_appended init st' 2 0.
Proof.
  intros st'. split_and!.
  - eexists. reflexivity.
  - reflexivity.
  - reflexivity.
  - intros Happ. vm_compute in Happ. discriminate.
Qed.

(** *** getAccessLogsInTimeRange *)

(** C5.  In a reachable storage [getAccessLogsInTimeRange] fails exactly
    when [startTime > endTime], then with the reason of its [require].
    Otherwise it returns what a single forward pass with early exit
    returns: at most [maxResults] positions, each of an entry of the
    patient with its timestamp in [[startTime, endTime]], in the order of
    the patient's index, which is the order of insertion; they are the
    first [maxResults] positions of the index that are in range. *)
Theorem getAccessLogsInTimeRange_spec p startTime endTime maxResults st :
  reachable st →
  let r := getAccessLogsInTimeRange p startTime endTime maxResults st in
  let patientLogs := patientAccessLogs_at st p in
  (fails r ↔ endTime < startTime)
  ∧ (endTime < startTime → r = Revert "Start time must be before end time")
  ∧ (startTime ≤ endTime →
       r = single_pass (accessLogs st) startTime endTime maxResults patientLogs []
       ∧ ∃ result, r = Ok result
         ∧ N.of_nat (length result) ≤ maxResults
         ∧ (∀ logIndex, logIndex ∈ result →
              ∃ log, accessLogs st !! N.to_nat logIndex = Some log
                ∧ Audit.patient log = p
                ∧ startTime ≤ timestamp log ≤ endTime)
         ∧ result `sublist_of` patientLogs
         ∧ StronglySorted N.lt result
         ∧ result = take (N.to_nat maxResults)
                      (List.filter (in_range_at (accessLogs st) startTime endTime)
                                   patientLogs)).
Proof.
  intros Hreach r patientLogs.
  assert (Hwf := audit_reachable_wf st Hreach p). fold patientLogs in Hwf.
  assert (Hall : Forall (λ i, is_Some (accessLogs st !! N.to_nat i)) patientLogs).
  { apply Forall_forall. intros i Hi. rewrite Hwf in Hi.
    apply positions_from_elem in Hi as (_ & log & Hlog & _).
    rewrite N.sub_0_r in Hlog. by eexists. }
  assert (Hscan := scan_take_filter (accessLogs st) startTime endTime
                     patientLogs (N.to_nat maxResults) Hall).
  assert (Hr : startTime ≤ endTime →
               r = scan (accessLogs st) startTime endTime patientLogs
                     (N.to_nat maxResults)).
  { intros Hle. subst r. unfold getAccessLogsInTimeRange, require.
    destruct (N.leb_spec startTime endTime); [|lia]. simpl.
    apply two_pass_scan. }
  split_and!.
  - split.
    + intros Hfail. destruct (N.lt_ge_cases endTime startTime) as [|Hle]; [done|].
      exfalso. eapply Hfail. rewrite (Hr Hle). exact Hscan.
    + intros Hlt a Ha. subst r. unfold getAccessLogsInTimeRange, require in Ha.
      destruct (N.leb_spec startTime endTime); [lia|]. discriminate.
  - intros Hlt. subst r. unfold getAccessLogsInTimeRange, require.
    destruct (N.leb_spec startTime endTime); [lia|]. done.
  - intros Hle. rewrite (Hr Hle). split.
    + rewrite single_pass_scan. simpl. rewrite Nat.sub_0_r.
      by destruct (scan _ _ _ _ _).
    + set (result := take _ _) in Hscan. exists result. clear Hr.
      split_and!; try done.
      * apply scan_length in Hscan. lia.
      * intros i Hi.
        assert (Hin := scan_in_range _ _ _ _ _ _ i Hscan Hi).
        assert (Hp : i ∈ patientLogs).
        { eapply elem_of_sublist; [exact Hi|]. by eapply scan_sublist. }
        rewrite Hwf in Hp.
        apply positions_from_elem in Hp as (_ & log & Hlog & Hpat).
        rewrite N.sub_0_r in Hlog. exists log. split_and!; try done.
        -- unfold Audit.in_range_at in Hin. rewrite Hlog in Hin.
           unfold in_range in Hin. apply andb_true_iff in Hin as [H1 _].
           by apply N.leb_le.
        -- unfold Audit.in_range_at in Hin. rewrite Hlog in Hin.
           unfold in_range in Hin. apply andb_true_iff in Hin as [_ H2].
           by apply N.leb_le.
      * by eapply scan_sublist.
      * eapply sublist_sorted; [by eapply scan_sublist|].
        rewrite Hwf. apply positions_from_sorted.
Qed.

Example sample_in_range : getAccessLogsInTimeRange 1 5 50 2 sample = Ok [0; 2].
Proof. reflexivity. Qed.

Example sample_by_accessor : getAccessLogsByAccessor 2 5 sample = Ok [0; 1; 3].
Proof. reflexivity. Qed.

Lemma getAccessLogsInTimeRange_spec_witness :
  ∃ result, getAccessLogsInTimeRange 1 5 50 2 sample = Ok result
    ∧ N.of_nat (length result) ≤ 2.
Proof.
  destruct (getAccessLogsInTimeRange_spec 1 5 50 2 sample)
    as (_ & _ & Hok).
  - unfold sample. do 4 apply reach_step. apply reach_init.
  - destruct Hok as (_ & result & Hr & Hlen & _); [lia|].
    exists result. split; [exact Hr | exact Hlen].
Defined.

(** *** Further properties of the audit log *)

(** X14.  [logAccess] reverts exactly when the patient or the accessor is
    the zero address or the resource id or the access type is empty, and
    returns otherwise, whatever the storage holds; a reverted call writes
    nothing and emits nothing. *)
Theorem logAccess_validation env p a rid ty ts st :
  let r := logAccess env p a rid ty ts st in
  (reverts r ↔ p = 0 ∨ a = 0 ∨ rid = "" ∨ ty = "")
  ∧ (succeeds r ↔ p ≠ 0 ∧ a ≠ 0 ∧ rid ≠ "" ∧ ty ≠ "")
  ∧ (reverts r → exec env (LogAccess p a rid ty ts) st = st ∧ emitted r = []).
Proof.
  intros r. subst r. simpl.
  destruct (logAccess_cases env p a rid ty ts st)
    as [(reason & -> & Hwhy)|(? & ? & ? & ? & ->)]; simpl; outcome; intuition.
Qed.

(** X15.  In a reachable storage [getAccessLog] reverts exactly when the
    index is not below [getAccessLogCount]; below it returns, without
    trapping, the entry at the position the patient's index holds there,
    and that entry is one of the patient asked for. *)
Theorem getAccessLog_bounds p index st :
  reachable st →
  let count := N.of_nat (length (patientAccessLogs_at st p)) in
  getAccessLogCount p st = Ok count
  ∧ (count ≤ index → getAccessLog p index st = Revert "Index out of bounds")
  ∧ (index < count →
       ∃ logIndex log,
         patientAccessLogs_at st p !! N.to_nat index = Some logIndex
         ∧ accessLogs st !! N.to_nat logIndex = Some log
         ∧ Audit.patient log = p
         ∧ getAccessLog p index st =
             Ok (p, accessor log, resourceId log, accessType log, timestamp log)).
Proof.
  intros Hreach count. subst count.
  assert (Hwf := audit_reachable_wf st Hreach p).
  unfold getAccessLog, require. split_and!; [done| |].
  - intros Hge.
    destruct (N.ltb_spec index (N.of_nat (length (patientAccessLogs_at st p))));
      [lia | done].
  - intros Hlt.
    destruct (N.ltb_spec index (N.of_nat (length (patientAccessLogs_at st p))));
      [|lia]. simpl.
    destruct (lookup_lt_is_Some_2 (patientAccessLogs_at st p) (N.to_nat index))
      as [logIndex Hidx]; [lia|].
    rewrite Hidx.
    assert (Hel : logIndex ∈ positions_from Audit.patient 0 p (accessLogs st)).
    { rewrite <- Hwf. by eapply list_elem_of_lookup_2. }
    apply positions_from_elem in Hel as (_ & log & Hlog & Hpat).
    rewrite N.sub_0_r in Hlog.
    exists logIndex, log. split_and!; try done.
    unfold accessLogs_at. rewrite Hlog. simpl. by rewrite Hpat.
Qed.

Lemma getAccessLog_bounds_witness :
  getAccessLog 1 3 sample = Revert "Index out of bounds".
Proof.
  destruct (getAccessLog_bounds 1 3 sample) as (_ & Hout & _).
  - unfold sample. do 4 apply reach_step. apply reach_init.
  - apply Hout. vm_compute. discriminate.
Defined.

(** X16.  After a [logAccess] that returns, [getAccessLog] at the
    patient's former count returns the fields just logged. *)
Theorem logAccess_then_getAccessLog env p a rid ty ts st :
  succeeds (logAccess env p a rid ty ts st) →
  getAccessLog p (N.of_nat (length (patientAccessLogs_at st p)))
      (exec env (LogAccess p a rid ty ts) st) =
    Ok (p, a, rid, ty, ts).
Proof.
  intros Hok. simpl.
  destruct (logAccess_cases env p a rid ty ts st)
    as [(reason & Hr & _)|(_ & _ & _ & _ & Hr)]; rewrite Hr in *;
    [destruct Hok; discriminate|].
  simpl. destruct st as [logs m].
  unfold getAccessLog, require.
  rewrite !(patientAccessLogs_at_insert _ logs), !decide_True by done.
  rewrite length_app. simpl.
  destruct (N.ltb_spec (N.of_nat (length (patientAccessLogs_at (mkState logs m) p)))
              (N.of_nat (length (patientAccessLogs_at (mkState logs m) p) + 1)));
    [|lia].
  simpl. rewrite Nat2N.id, list_lookup_middle by done.
  unfold accessLogs_at. rewrite Nat2N.id, list_lookup_middle by done. done.
Qed.

Lemma logAccess_then_getAccessLog_witness :
  getAccessLog 1 (N.of_nat (length (patientAccessLogs_at init 1)))
      (exec (mkEnv 9 0) (LogAccess 1 2 "rec-1" "view" 10) init) =
    Ok (1, 2, "rec-1", "view", 10).
Proof.
  apply (logAccess_then_getAccessLog (mkEnv 9 0) 1 2 "rec-1" "view" 10 init).
  eexists. reflexivity.
Defined.

Lemma length_positions_from key i who logs :
  length (positions_from key i who logs) =
    length (filter (λ log, key log = who) logs).
Proof.
  revert i. induction logs as [|log logs IH]; intros i; [done|]. simpl.
  rewrite filter_cons.
  destruct (N.eqb_spec (key log) who); case_decide; simpl; try done;
    by rewrite IH.
Qed.

(** X17.  In a reachable storage [getAccessLogCount] is the number of
    entries of the log whose patient is the one asked for. *)
Theorem getAccessLogCount_counts p st :
  reachable st →
  getAccessLogCount p st =
    Ok (N.of_nat (length (filter (λ log, Audit.patient log = p) (accessLogs st)))).
Proof.
  intros Hreach. unfold getAccessLogCount.
  by rewrite (audit_reachable_wf st Hreach p), length_positions_from.
Qed.

Lemma getAccessLogCount_counts_witness :
  getAccessLogCount 1 sample =
    Ok (N.of_nat (length (filter (λ log, Audit.patient log = 1) (accessLogs sample)))).
Proof.
  apply getAccessLogCount_counts.
  unfold sample. do 4 apply reach_step. apply reach_init.
Defined.

Lemma positions_from_complete key i who logs k log :
  logs !! k = Some log → key log = who →
  i + N.of_nat k ∈ positions_from key i who logs.
Proof.
  revert i k. induction logs as [|log' logs IH]; intros i k; [done|].
  destruct k as [|k]; simpl.
  - intros [= ->] Hkey. apply N.eqb_eq in Hkey. rewrite Hkey.
    rewrite N.add_0_r. apply list_elem_of_here.
  - intros Hlog Hkey.
    assert (Hin := IH (i + 1) k Hlog Hkey).
    replace (i + 1 + N.of_nat k) with (i + N.pos (Pos.of_succ_nat k)) in Hin by lia.
    destruct (key log' =? who); [by apply list_elem_of_further | done].
Qed.

(** X18.  [getAccessLogsByAccessor] always returns.  Its result has at
    most [maxResults] positions, in strictly increasing order, each of an
    entry with the accessor asked for; and when [maxResults] is at least
    the length of the log, every entry of the accessor is in it. *)
Theorem getAccessLogsByAccessor_spec who maxResults st :
  ∃ result,
    getAccessLogsByAccessor who maxResults st = Ok result
    ∧ N.of_nat (length result) ≤ maxResults
    ∧ StronglySorted N.lt result
    ∧ (∀ i, i ∈ result →
         ∃ log, accessLogs st !! N.to_nat i = Some log ∧ accessor log = who)
    ∧ (N.of_nat (length (accessLogs st)) ≤ maxResults →
         ∀ i log, accessLogs st !! N.to_nat i = Some log → accessor log = who →
           i ∈ result).
Proof.
  eexists. split; [apply getAccessLogsByAccessor_positions|].
  set (found := positions_from accessor 0 who (accessLogs st)).
  assert (Hsub : take (N.to_nat maxResults) found `sublist_of` found)
    by apply sublist_take.
  split_and!.
  - rewrite length_take. lia.
  - eapply sublist_sorted; [exact Hsub | apply positions_from_sorted].
  - intros i Hi. eapply elem_of_sublist in Hi; [|exact Hsub].
    apply positions_from_elem in Hi as (_ & log & Hlog & Hacc).
    rewrite N.sub_0_r in Hlog. by exists log.
  - intros Hmax i log Hlog Hacc.
    rewrite take_ge.
    + replace i with (0 + N.of_nat (N.to_nat i)) by lia.
      by eapply positions_from_complete.
    + subst found. rewrite length_positions_from.
      pose proof (length_filter (λ log, accessor log = who) (accessLogs st)). lia.
Qed.

(** *** Queries against a growing log *)

Lemma reachable_run calls st : reachable st → reachable (run calls st).
Proof.
  revert st. induction calls as [|[env c] calls IH]; intros st Hreach; [done|].
  simpl. apply IH. by apply reach_step.
Qed.

Lemma exec_logs_extend env c st : ∃ k, accessLogs (exec env c st) = accessLogs st ++ k.
Proof.
  destruct c as [p a rid ty ts| | | |]; simpl; try (exists []; by rewrite app_nil_r).
  destruct (logAccess_cases env p a rid ty ts st)
    as [(reason & -> & _)|(_ & _ & _ & _ & ->)]; simpl.
  - exists []. by rewrite app_nil_r.
  - by eexists.
Qed.

Lemma run_logs_extend calls st : ∃ k, accessLogs (run calls st) = accessLogs st ++ k.
Proof.
  revert st. induction calls as [|[env c] calls IH]; intros st.
  - exists []. by rewrite app_nil_r.
  - simpl. destruct (IH (exec env c st)) as [k2 ->].
    destruct (exec_logs_extend env c st) as [k1 ->].
    exists (k1 ++ k2). by rewrite app_assoc.
Qed.

(** The answer of [getAccessLogsInTimeRange] in a reachable storage. *)
Lemma range_query_take p startTime endTime maxResults st :
  reachable st → startTime ≤ endTime →
  getAccessLogsInTimeRange p startTime endTime maxResults st =
    Ok (take (N.to_nat maxResults)
          (List.filter (in_range_at (accessLogs st) startTime endTime)
                       (patientAccessLogs_at st p))).
Proof.
  intros Hreach Hle. unfold getAccessLogsInTimeRange, require.
  destruct (N.leb_spec startTime endTime); [|lia]. simpl.
  rewrite two_pass_scan. apply scan_take_filter.
  apply Forall_forall. intros i Hi.
  rewrite (audit_reachable_wf st Hreach p) in Hi.
  apply positions_from_elem in Hi as (_ & log & Hlog & _).
  rewrite N.sub_0_r in Hlog. by eexists.
Qed.

Lemma take_prefix_le {A} (l : list A) n m :
  (n ≤ m)%nat → take n l `prefix_of` take m l.
Proof.
  intros Hnm. replace (take n l) with (take n (take m l)).
  - apply prefix_take.
  - rewrite take_take. f_equal. lia.
Qed.

(** X19.  In a reachable storage, raising [maxResults] only extends the
    answer of [getAccessLogsInTimeRange]: the answer for a smaller bound
    is a prefix of the answer for a larger one. *)
Theorem range_query_monotone p startTime endTime m m' st :
  reachable st → startTime ≤ endTime → m ≤ m' →
  ∃ result result',
    getAccessLogsInTimeRange p startTime endTime m st = Ok result
    ∧ getAccessLogsInTimeRange p startTime endTime m' st = Ok result'
    ∧ result `prefix_of` result'.
Proof.
  intros Hreach Hle Hm. do 2 eexists.
  split_and!; [by apply range_query_take | by apply range_query_take |].
  apply take_prefix_le. lia.
Qed.

Lemma range_query_monotone_witness :
  ∃ result result',
    getAccessLogsInTimeRange 1 5 50 1 sample = Ok result
    ∧ getAccessLogsInTimeRange 1 5 50 3 sample = Ok result'
    ∧ result `prefix_of` result'.
Proof.
  apply range_query_monotone.
  - unfold sample. do 4 apply reach_step. apply reach_init.
  - vm_compute. discriminate.
  - vm_compute. discriminate.
Defined.

(** X20.  The log only grows, so an answer of [getAccessLogsInTimeRange]
    is never taken back: after any run of calls on a reachable storage,
    the same query returns an extension of what it returned before. *)
Theorem range_query_stable calls p startTime endTime maxResults st :
  reachable st → startTime ≤ endTime →
  ∃ result result',
    getAccessLogsInTimeRange p startTime endTime maxResults st = Ok result
    ∧ getAccessLogsInTimeRange p startTime endTime maxResults (run calls st)
        = Ok result'
    ∧ result `prefix_of` result'.
Proof.
  intros Hreach Hle. do 2 eexists.
  split_and!; [by apply range_query_take
              | apply range_query_take; [by apply reachable_run | done] |].
  assert (Hwf := audit_reachable_wf st Hreach p).
  assert (Hwf' := audit_reachable_wf _ (reachable_run calls st Hreach) p).
  destruct (run_logs_extend calls st) as [k Hk].
  rewrite Hwf', Hk, positions_from_app, <- Hwf, N.add_0_l.
  rewrite List.filter_app.
  assert (Hsame : List.filter (in_range_at (accessLogs st ++ k) startTime endTime)
                    (patientAccessLogs_at st p)
                  = List.filter (in_range_at (accessLogs st) startTime endTime)
                      (patientAccessLogs_at st p)).
  { apply List.filter_ext_in. intros i Hi%list_elem_of_In.
    rewrite Hwf in Hi. apply positions_from_elem in Hi as (_ & log & Hlog & _).
    rewrite N.sub_0_r in Hlog. unfold Audit.in_range_at.
    by rewrite (lookup_app_l_Some _ _ _ _ Hlog), Hlog. }
  rewrite Hsame, take_app. by apply prefix_app_r.
Qed.

Lemma range_query_stable_witness :
  ∃ result result',
    getAccessLogsInTimeRange 1 5 50 5 sample = Ok result
    ∧ getAccessLogsInTimeRange 1 5 50 5
        (run [(mkEnv 9 0, LogAccess 1 7 "rec-5" "view" 45)] sample) = Ok result'
    ∧ result `prefix_of` result'.
Proof.
  apply range_query_stable.
  - unfold sample. do 4 apply reach_step. apply reach_init.
  - vm_compute. discriminate.
Defined.

(** X21.  In every reachable storage each entry of the log has a non-zero
    patient and accessor and a non-empty resource id and access type. *)
Theorem reachable_entry_valid st i log :
  reachable st →
  accessLogs st !! i = Some log →
  Audit.patient log ≠ 0 ∧ accessor log ≠ 0
  ∧ resourceId log ≠ "" ∧ accessType log ≠ "".
Proof.
  intros Hreach. revert i log.
  induction Hreach as [|env c st Hreach IH]; intros i log.
  - simpl. by rewrite lookup_nil.
  - destruct c as [p a rid ty ts| | | |]; simpl; try apply IH.
    destruct (logAccess_cases env p a rid ty ts st)
      as [(reason & -> & _)|(? & ? & ? & ? & ->)]; simpl; try apply IH.
    intros [[_ Hold]|[_ <-]]%lookup_snoc_Some; [by eapply IH|].
    simpl. by split_and!.
Qed.

Lemma reachable_entry_valid_witness :
  Audit.patient (mkLog 1 2 "rec-1" "view" 10) ≠ 0
  ∧ accessor (mkLog 1 2 "rec-1" "view" 10) ≠ 0
  ∧ resourceId (mkLog 1 2 "rec-1" "view" 10) ≠ ""
  ∧ accessType (mkLog 1 2 "rec-1" "view" 10) ≠ "".
Proof.
  apply (reachable_entry_valid sample 0%nat).
  - unfold sample. do 4 apply reach_step. apply reach_init.
  - reflexivity.
Defined.

End AuditFacts.
